(** * A shallow embedding of the xv6 file-system layer (fs.c, file.c)

    The development follows the layering of fs.c: raw blocks and the
    free bitmap, the inode cache, the block map, inode content,
    directories, path names, symbolic-link canonicalization, and the
    password-lock extension.  Kernel state is threaded explicitly through
    a small state-and-fault monad. *)

From Stdlib Require Import ZArith Lia.
From stdpp Require Import base option list gmap strings.

Local Open Scope Z_scope.

(** ** Compile-time constants

    fs.h, param.h, stat.h and file.h are not part of the sources at hand,
    so the sizing constants they define are parameters of the whole
    development. *)

Class fs_params := {
  BSIZE : Z;       (* block size in bytes *)
  NDIRECT : Z;     (* direct block pointers per inode *)
  NINDIRECT : Z;   (* block pointers per index block *)
  MAXFILE : Z;     (* largest file, in blocks *)
  DIRSIZ : Z;      (* bytes of a directory-entry name *)
  MAXPATH : Z;     (* size of a path buffer *)
  PASSLEN : Z;     (* size of the password buffer of an inode *)
  NPROC : Z;       (* exemption slots per inode *)
  NINODE : Z;      (* entries of the inode cache *)
  NDEV : Z;        (* entries of the device switch *)
  ROOTDEV : Z;
  ROOTINO : Z
}.

(** The constants fs.c defines itself. *)
Definition MAX_SYMLINK_LOOPS : Z := 16.
Definition NINODES : Z := 200.

(** Modelled from the spec: stat.h is not among the sources.  The data
    model has five inode types, the free one being zero; directory, file
    and device carry the numbers of stock xv6. *)
Definition T_DIR : Z := 1.
(** Modelled from the spec: the type of a regular file (see [T_DIR]). *)
Definition T_FILE : Z := 2.
(** Modelled from the spec: the type of a device (see [T_DIR]). *)
Definition T_DEV : Z := 3.
(** Modelled from the spec: the type of a symbolic link, which the
    extension adds; it takes the next number. *)
Definition T_SYMLINK : Z := 4.

(** Modelled from the spec: file.h is not among the sources; the busy
    flag of an in-memory inode is one bit of [flags]. *)
Definition I_BUSY : Z := 1.
(** Modelled from the spec: the valid flag, a bit independent of the busy
    one. *)
Definition I_VALID : Z := 2.

(** ** Machine integers *)

Definition wrap32 (x : Z) : Z := x mod 2 ^ 32.

(** Conversion of a [uint] to [int], as on the two's-complement target. *)
Definition to_int (x : Z) : Z :=
  if wrap32 x <? 2 ^ 31 then wrap32 x else wrap32 x - 2 ^ 32.

(** ** Byte arrays *)

Definition zget (l : list Z) (i : Z) : Z := nth (Z.to_nat i) l 0.
Definition zset (l : list Z) (i : Z) (v : Z) : list Z := <[Z.to_nat i := v]> l.

(** Modelled from the spec: [memmove(dst, src, n)] of string.c, with
    [dst] the start of an array: the first [n] bytes of [src] replace the
    first [n] bytes of [dst]. *)
Definition memmove (dst src : list Z) (n : Z) : list Z :=
  take (Z.to_nat n) src ++ drop (Z.to_nat n) dst.

(** [store buf off bytes] writes [bytes] at [buf + off]; [None] when the
    write would run past the end of the array. *)
Definition store (buf : list Z) (off : Z) (bytes : list Z) : option (list Z) :=
  if (0 <=? off) && (off + Z.of_nat (length bytes) <=? Z.of_nat (length buf))
  then Some (take (Z.to_nat off) buf ++ bytes
               ++ drop (Z.to_nat off + length bytes) buf)
  else None.

(** The C string held at the start of an array: the bytes before the first
    NUL; [None] when the array holds no NUL. *)
Fixpoint cstr (b : list Z) : option (list Z) :=
  match b with
  | [] => None
  | c :: b' => if c =? 0 then Some [] else (c ::.) <$> cstr b'
  end.

(** Modelled from the spec: string.c is not among the sources; its
    routines have their usual C meaning.  A [char*] argument that is read
    as a string is given by its bytes before the terminator, so [strlen]
    is the length of the list. *)
Definition strlen (s : list Z) : Z := Z.of_nat (length s).

(** Modelled from the spec: the loop of [strncmp], comparing at most [n]
    bytes and stopping at a NUL of [p] or at the first difference; past
    the end of a list it reads NUL. *)
Fixpoint strncmp_go (n : nat) (p q : list Z) : Z :=
  match n with
  | O => 0
  | S n' =>
    match p, q with
    | [], [] => 0
    | [], d :: _ => 0 - d
    | c :: _, [] => c
    | c :: p', d :: q' =>
      if (c =? 0) || negb (c =? d) then c - d else strncmp_go n' p' q'
    end
  end.

(** Modelled from the spec: [strncmp(p, q, n)], the fixed-length
    comparison of names and of passwords; zero means equal. *)
Definition strncmp (p q : list Z) (n : Z) : Z := strncmp_go (Z.to_nat n) p q.

(** Modelled from the spec: [safestrcpy(s, t, n)], given by the bytes
    written at [s]: at most [n-1] bytes of the string [t], then a NUL. *)
Definition safestrcpy_bytes (t : list Z) (n : Z) : list Z :=
  if n <=? 0 then [] else take (Z.to_nat (n - 1)) t ++ [0].

(** Modelled from the spec: [strncpy(s, t, n)], given by the [n] bytes
    written at [s]: the string [t] padded with NULs, or its first [n]
    bytes with no terminator. *)
Definition strncpy_bytes (t : list Z) (n : Z) : list Z :=
  take (Z.to_nat n) t ++ replicate (Z.to_nat n - length t)%nat 0.

(** ** Path elements *)

Definition slash : Z := 47.

Fixpoint skip_slashes (p : list Z) : list Z :=
  match p with
  | c :: p' => if c =? slash then skip_slashes p' else p
  | [] => []
  end.

(** The scan of skipelem up to the next slash or the terminator,
    returning the bytes passed over and where it stopped. *)
Fixpoint scan_elem (p : list Z) : list Z * list Z :=
  match p with
  | c :: p' =>
    if c =? slash then ([], p)
    else let '(e, r) := scan_elem p' in (c :: e, r)
  | [] => ([], [])
  end.

(** Text literals for examples. *)
Fixpoint bytes_of (s : string) : list Z :=
  match s with
  | EmptyString => []
  | String a s' => Z.of_N (Ascii.N_of_ascii a) :: bytes_of s'
  end.

(** Modelled from the spec: the bytes the copy loop of [safestrcpy]
    reads from an array: at most [k] bytes, stopping at a NUL; [None]
    when the read leaves the array. *)
Fixpoint strn (k : nat) (b : list Z) : option (list Z) :=
  match k with
  | O => Some []
  | S k' =>
    match b with
    | [] => None
    | c :: b' => if c =? 0 then Some [] else (c ::.) <$> strn k' b'
    end
  end.

(** A block read as an array of [uint], little-endian. *)
Definition get_uint (blk : list Z) (i : Z) : Z :=
  zget blk (4 * i) + 256 * zget blk (4 * i + 1)
  + 65536 * zget blk (4 * i + 2) + 16777216 * zget blk (4 * i + 3).

Definition set_uint (blk : list Z) (i v : Z) : list Z :=
  zset (zset (zset (zset blk (4 * i) (v mod 256))
                   (4 * i + 1) (v / 256 mod 256))
             (4 * i + 2) (v / 65536 mod 256))
       (4 * i + 3) (v / 16777216 mod 256).

(** ** Kernel state *)

(** The fields an in-memory inode copies from its on-disk form. *)
Record dinode := mk_dinode {
  d_type : Z;
  d_major : Z;
  d_minor : Z;
  d_nlink : Z;
  d_size : Z;
  d_addrs : list Z;        (* NDIRECT direct entries, then the indirect one *)
  d_indirect2 : Z;
  d_password : list Z      (* PASSLEN bytes *)
}.

Record inode := mk_inode {
  i_dev : Z;
  i_inum : Z;
  i_ref : Z;
  i_flags : Z;
  i_din : dinode
}.

Definition i_type (ip : inode) := d_type (i_din ip).
Definition i_major (ip : inode) := d_major (i_din ip).
Definition i_nlink (ip : inode) := d_nlink (i_din ip).
Definition i_size (ip : inode) := d_size (i_din ip).
Definition i_addrs (ip : inode) := d_addrs (i_din ip).
Definition i_indirect2 (ip : inode) := d_indirect2 (i_din ip).
Definition i_password (ip : inode) := d_password (i_din ip).

Definition set_type (v : Z) (d : dinode) : dinode :=
  mk_dinode v (d_major d) (d_minor d) (d_nlink d) (d_size d) (d_addrs d)
            (d_indirect2 d) (d_password d).
Definition set_size (v : Z) (d : dinode) : dinode :=
  mk_dinode (d_type d) (d_major d) (d_minor d) (d_nlink d) v (d_addrs d)
            (d_indirect2 d) (d_password d).
Definition set_addrs (v : list Z) (d : dinode) : dinode :=
  mk_dinode (d_type d) (d_major d) (d_minor d) (d_nlink d) (d_size d) v
            (d_indirect2 d) (d_password d).
Definition set_indirect2 (v : Z) (d : dinode) : dinode :=
  mk_dinode (d_type d) (d_major d) (d_minor d) (d_nlink d) (d_size d)
            (d_addrs d) v (d_password d).
Definition set_password (v : list Z) (d : dinode) : dinode :=
  mk_dinode (d_type d) (d_major d) (d_minor d) (d_nlink d) (d_size d)
            (d_addrs d) (d_indirect2 d) v.

Definition set_ref (v : Z) (ip : inode) : inode :=
  mk_inode (i_dev ip) (i_inum ip) v (i_flags ip) (i_din ip).
Definition set_flags (v : Z) (ip : inode) : inode :=
  mk_inode (i_dev ip) (i_inum ip) (i_ref ip) v (i_din ip).
Definition set_din (f : dinode -> dinode) (ip : inode) : inode :=
  mk_inode (i_dev ip) (i_inum ip) (i_ref ip) (i_flags ip) (f (i_din ip)).

(** The disk is kept by region, as the layout macros of fs.h (not among
    the sources) divide it: the superblock, the inode table indexed by
    inode number, the pages of the free bitmap indexed by page number, and
    the blocks addressed by block number.  [struct inode*] is an index
    into [icache]; [unlocked_inodes] is the table [pids], zero where the
    map has no entry. *)
Record state := mk_state {
  sb_size : Z;
  sb_ninodes : Z;
  bitmap : gmap Z (list Z);
  dinodes : gmap Z dinode;
  blocks : gmap Z (list Z);
  icache : list inode;
  unlocked_inodes : gmap (Z * Z) Z;
  proc_pid : Z;
  proc_cwd : nat
}.

Definition set_bitmap (v : gmap Z (list Z)) (s : state) : state :=
  mk_state (sb_size s) (sb_ninodes s) v (dinodes s) (blocks s) (icache s)
           (unlocked_inodes s) (proc_pid s) (proc_cwd s).
Definition set_dinodes (v : gmap Z dinode) (s : state) : state :=
  mk_state (sb_size s) (sb_ninodes s) (bitmap s) v (blocks s) (icache s)
           (unlocked_inodes s) (proc_pid s) (proc_cwd s).
Definition set_blocks (v : gmap Z (list Z)) (s : state) : state :=
  mk_state (sb_size s) (sb_ninodes s) (bitmap s) (dinodes s) v (icache s)
           (unlocked_inodes s) (proc_pid s) (proc_cwd s).
Definition set_icache (v : list inode) (s : state) : state :=
  mk_state (sb_size s) (sb_ninodes s) (bitmap s) (dinodes s) (blocks s) v
           (unlocked_inodes s) (proc_pid s) (proc_cwd s).
Definition set_unlocked (v : gmap (Z * Z) Z) (s : state) : state :=
  mk_state (sb_size s) (sb_ninodes s) (bitmap s) (dinodes s) (blocks s)
           (icache s) v (proc_pid s) (proc_cwd s).

(** ** The monad of kernel routines

    A routine returns with a new state, halts in [panic], or cannot
    proceed: it sleeps on a busy inode that nothing will wake, it accesses
    an array outside its bounds, or a loop of the model ran out of fuel. *)

Inductive fault := Asleep | OutOfBounds | NoFuel.

Inductive outcome (A : Type) :=
| Ret (a : A) (s : state)
| Panic (msg : string)
| Stuck (f : fault).
Arguments Ret {A} a s.
Arguments Panic {A} msg.
Arguments Stuck {A} f.

Definition M (A : Type) := state -> outcome A.

Definition ret {A} (a : A) : M A := fun s => Ret a s.
Definition bind {A B} (m : M A) (k : A -> M B) : M B :=
  fun s => match m s with
           | Ret a s' => k a s'
           | Panic msg => Panic msg
           | Stuck f => Stuck f
           end.
Definition panic {A} (msg : string) : M A := fun _ => Panic msg.
Definition stuck {A} (f : fault) : M A := fun _ => Stuck f.
Definition gets {A} (f : state -> A) : M A := fun s => Ret (f s) s.
Definition modify (f : state -> state) : M unit := fun s => Ret tt (f s).
Definition in_bounds {A} (o : option A) : M A :=
  match o with Some a => ret a | None => stuck OutOfBounds end.

Declare Scope kernel_scope.
Delimit Scope kernel_scope with kernel.
Notation "x <- m ;; k" := (bind m (fun x => k))
  (at level 100, m at next level, right associativity) : kernel_scope.
Notation "m ;;; k" := (bind m (fun _ => k))
  (at level 100, right associativity) : kernel_scope.
Local Open Scope kernel_scope.

(** [for(x in xs) body] with no early exit. *)
Fixpoint for_each {A} (xs : list A) (body : A -> M unit) : M unit :=
  match xs with
  | [] => ret tt
  | x :: xs' => body x ;;; for_each xs' body
  end.

Section Kernel.
Context `{fs_params}.

(** ** Blocks *)

(** Bitmap bits per block. *)
Definition BPB : Z := BSIZE * 8.

Definition zero_block : list Z := replicate (Z.to_nat BSIZE) 0.

(** [bread] of a block of the data region, and of the bitmap page that
    holds the bit of block [b]. *)
Definition bread (bno : Z) : M (list Z) :=
  gets (fun s => default zero_block (blocks s !! bno)).
Definition bread_bitmap (b : Z) : M (list Z) :=
  gets (fun s => default zero_block (bitmap s !! (b / BPB))).

(** Assignments through [bp->data], which land in the cached block. *)
Definition update_block (bno : Z) (f : list Z -> list Z) : M unit :=
  modify (fun s =>
    set_blocks (<[bno := f (default zero_block (blocks s !! bno))]> (blocks s)) s).
Definition update_bitmap (b : Z) (f : list Z -> list Z) : M unit :=
  modify (fun s =>
    set_bitmap (<[b / BPB := f (default zero_block (bitmap s !! (b / BPB)))]>
                  (bitmap s)) s).

Definition bzero (bno : Z) : M unit :=
  update_block bno (fun _ => zero_block).

(** The inner loop of balloc over the bits [bis] of the page of [b]. *)
Fixpoint balloc_bits (bis : list Z) (b : Z) : M (option Z) :=
  match bis with
  | [] => ret None
  | bi :: bis' =>
    size <- gets sb_size ;;
    if b + bi <? size then
      data <- bread_bitmap b ;;
      let m := Z.shiftl 1 (bi mod 8) in
      if Z.land (zget data (bi / 8)) m =? 0 then
        update_bitmap b (fun d => zset d (bi / 8) (Z.lor (zget d (bi / 8)) m mod 256)) ;;;
        bzero (b + bi) ;;;
        ret (Some (b + bi))
      else balloc_bits bis' b
    else ret None
  end.

(** The outer loop of balloc over the pages numbered [ks]. *)
Fixpoint balloc_pages (ks : list Z) : M Z :=
  match ks with
  | [] => panic "balloc: out of blocks"
  | k :: ks' =>
    let b := k * BPB in
    size <- gets sb_size ;;
    if b <? size then
      r <- balloc_bits (seqZ 0 BPB) b ;;
      match r with
      | Some bno => ret bno
      | None => balloc_pages ks'
      end
    else panic "balloc: out of blocks"
  end.

Definition balloc (dev : Z) : M Z :=
  size <- gets sb_size ;;
  balloc_pages (seqZ 0 ((size + BPB - 1) / BPB)).

Definition bfree (dev : Z) (b : Z) : M unit :=
  data <- bread_bitmap b ;;
  let bi := b mod BPB in
  let m := Z.shiftl 1 (bi mod 8) in
  if Z.land (zget data (bi / 8)) m =? 0 then panic "freeing free block"
  else update_bitmap b (fun d => zset d (bi / 8) (Z.land (zget d (bi / 8)) (Z.lnot m))).

(** ** Inodes *)

Definition zero_dinode : dinode :=
  mk_dinode 0 0 0 0 0 (replicate (Z.to_nat (NDIRECT + 1)) 0) 0
            (replicate (Z.to_nat PASSLEN) 0).

Definition get_inode (ip : nat) : M inode :=
  c <- gets icache ;;
  in_bounds (c !! ip).

Definition update_inode (ip : nat) (f : inode -> inode) : M unit :=
  modify (fun s => set_icache (alter f ip (icache s)) s).

Definition iupdate (ip : nat) : M unit :=
  i <- get_inode ip ;;
  modify (fun s => set_dinodes (<[i_inum i := i_din i]> (dinodes s)) s).

(** The scan of the cache in iget: the slot that matches, or else the
    first empty slot if there is one. *)
Fixpoint iget_scan (c : list inode) (k : nat) (empty : option nat)
    (dev inum : Z) : nat + option nat :=
  match c with
  | [] => inr empty
  | ip :: c' =>
    if (0 <? i_ref ip) && (i_dev ip =? dev) && (i_inum ip =? inum) then inl k
    else iget_scan c' (S k)
           (match empty with
            | None => if i_ref ip =? 0 then Some k else None
            | Some e => Some e
            end) dev inum
  end.

Definition iget (dev inum : Z) : M nat :=
  c <- gets icache ;;
  match iget_scan c 0 None dev inum with
  | inl ip => update_inode ip (fun i => set_ref (i_ref i + 1) i) ;;; ret ip
  | inr None => panic "iget: no inodes"
  | inr (Some ip) =>
    update_inode ip (fun i => mk_inode dev inum 1 0 (i_din i)) ;;; ret ip
  end.

Definition idup (ip : nat) : M nat :=
  update_inode ip (fun i => set_ref (i_ref i + 1) i) ;;; ret ip.

(** ilock.  Its callers pass a pointer they have checked, so the null
    test of the first guard is not represented.  A busy inode makes the
    caller sleep; with no other thread to clear the flag it never wakes. *)
Definition ilock (ip : nat) : M unit :=
  i <- get_inode ip ;;
  if i_ref i <? 1 then panic "ilock"
  else if negb (Z.land (i_flags i) I_BUSY =? 0) then stuck Asleep
  else
    update_inode ip (fun i => set_flags (Z.lor (i_flags i) I_BUSY) i) ;;;
    i <- get_inode ip ;;
    if Z.land (i_flags i) I_VALID =? 0 then
      d <- gets (fun s => default zero_dinode (dinodes s !! i_inum i)) ;;
      update_inode ip (fun i => set_flags (Z.lor (i_flags i) I_VALID)
                                          (set_din (fun _ => d) i)) ;;;
      if d_type d =? 0 then panic "ilock: no type" else ret tt
    else ret tt.

Definition iunlock (ip : nat) : M unit :=
  i <- get_inode ip ;;
  if (Z.land (i_flags i) I_BUSY =? 0) || (i_ref i <? 1) then panic "iunlock"
  else update_inode ip (fun i => set_flags (Z.land (i_flags i) (Z.lnot I_BUSY)) i).

(** ** Inode content *)

Definition set_addr (ip : nat) (bn addr : Z) : M unit :=
  update_inode ip (set_din (fun d => set_addrs (zset (d_addrs d) bn addr) d)).

Definition bmap (ip : nat) (bn : Z) : M Z :=
  i <- get_inode ip ;;
  if bn <? NDIRECT then
    let addr := zget (i_addrs i) bn in
    if addr =? 0 then
      addr <- balloc (i_dev i) ;;
      set_addr ip bn addr ;;;
      ret addr
    else ret addr
  else
  let bn := bn - NDIRECT in
  if bn <? NINDIRECT then
    (* Load indirect block, allocating if necessary. *)
    addr <- (let addr := zget (i_addrs i) NDIRECT in
             if addr =? 0 then
               addr <- balloc (i_dev i) ;;
               set_addr ip NDIRECT addr ;;;
               ret addr
             else ret addr) ;;
    a <- bread addr ;;
    let addr' := get_uint a bn in
    if addr' =? 0 then
      addr' <- balloc (i_dev i) ;;
      update_block addr (fun a => set_uint a bn addr') ;;;
      ret addr'
    else ret addr'
  else
  let bn := bn - NINDIRECT in
  if bn <? NINDIRECT * NINDIRECT then
    (* Load double indirect block, allocating if necessary. *)
    addr <- (let addr := i_indirect2 i in
             if addr =? 0 then
               addr <- balloc (i_dev i) ;;
               update_inode ip (set_din (set_indirect2 addr)) ;;;
               ret addr
             else ret addr) ;;
    a <- bread addr ;;
    addr1 <- (let addr1 := get_uint a (bn / NINDIRECT) in
              if addr1 =? 0 then
                addr1 <- balloc (i_dev i) ;;
                update_block addr (fun a => set_uint a (bn / NINDIRECT) addr1) ;;;
                ret addr1
              else ret addr1) ;;
    a <- bread addr1 ;;
    let addr2 := get_uint a (bn mod NINDIRECT) in
    if addr2 =? 0 then
      addr2 <- balloc (i_dev i) ;;
      update_block addr1 (fun a => set_uint a (bn mod NINDIRECT) addr2) ;;;
      ret addr2
    else ret addr2
  else panic "bmap: out of range".

(** Free every nonzero entry of the index block [a]. *)
Definition free_entries (dev : Z) (a : list Z) : M unit :=
  for_each (seqZ 0 NINDIRECT) (fun j =>
    if negb (get_uint a j =? 0) then bfree dev (get_uint a j) else ret tt).

Definition itrunc (ip : nat) : M unit :=
  for_each (seqZ 0 NDIRECT) (fun i =>
    ino <- get_inode ip ;;
    if negb (zget (i_addrs ino) i =? 0) then
      bfree (i_dev ino) (zget (i_addrs ino) i) ;;;
      set_addr ip i 0
    else ret tt) ;;;
  ino <- get_inode ip ;;
  (if negb (zget (i_addrs ino) NDIRECT =? 0) then
     a <- bread (zget (i_addrs ino) NDIRECT) ;;
     free_entries (i_dev ino) a ;;;
     bfree (i_dev ino) (zget (i_addrs ino) NDIRECT) ;;;
     set_addr ip NDIRECT 0
   else ret tt) ;;;
  (if negb (i_indirect2 ino =? 0) then
     a <- bread (i_indirect2 ino) ;;
     for_each (seqZ 0 NINDIRECT) (fun i =>
       if negb (get_uint a i =? 0) then
         a2 <- bread (get_uint a i) ;;
         free_entries (i_dev ino) a2 ;;;
         bfree (i_dev ino) (get_uint a i)
       else ret tt) ;;;
     bfree (i_dev ino) (i_indirect2 ino) ;;;
     update_inode ip (set_din (set_indirect2 0))
   else ret tt) ;;;
  update_inode ip (set_din (set_size 0)) ;;;
  iupdate ip.

Definition iput (ip : nat) : M unit :=
  i <- get_inode ip ;;
  (if (i_ref i =? 1) && negb (Z.land (i_flags i) I_VALID =? 0)
      && (i_nlink i =? 0) then
     (* inode has no links: truncate and free inode. *)
     if negb (Z.land (i_flags i) I_BUSY =? 0) then panic "iput busy"
     else
       update_inode ip (fun i => set_flags (Z.lor (i_flags i) I_BUSY) i) ;;;
       itrunc ip ;;;
       update_inode ip (set_din (set_type 0)) ;;;
       iupdate ip ;;;
       update_inode ip (set_flags 0)
   else ret tt) ;;;
  update_inode ip (fun i => set_ref (i_ref i - 1) i).

Definition iunlockput (ip : nat) : M unit :=
  iunlock ip ;;; iput ip.

(** The device switch: for a major number, the read and the write
    handler if one is registered.  A read handler yields its result and
    the bytes it stored at [dst]. *)
Variable devsw_read : Z -> option (nat -> Z -> M (Z * list Z)).
Variable devsw_write : Z -> option (nat -> list Z -> Z -> M Z).

Definition slice (l : list Z) (off len : Z) : list Z :=
  take (Z.to_nat len) (drop (Z.to_nat off) l).

(** The copy loop of readi; [dst] collects the bytes stored so far. *)
Fixpoint readi_loop (fuel : nat) (ip : nat) (n tot off : Z) (dst : list Z)
    : M (Z * list Z) :=
  if tot <? n then
    match fuel with
    | O => stuck NoFuel
    | S fuel' =>
      addr <- bmap ip (off / BSIZE) ;;
      data <- bread addr ;;
      let m := Z.min (wrap32 (n - tot)) (wrap32 (BSIZE - off mod BSIZE)) in
      readi_loop fuel' ip n (wrap32 (tot + m)) (wrap32 (off + m))
                 (dst ++ slice data (off mod BSIZE) m)
    end
  else ret (to_int n, dst).

Definition readi (ip : nat) (off n : Z) : M (Z * list Z) :=
  i <- get_inode ip ;;
  if i_type i =? T_DEV then
    if (i_major i <? 0) || (NDEV <=? i_major i) then ret (-1, [])
    else match devsw_read (i_major i) with
         | None => ret (-1, [])
         | Some read => read ip n
         end
  else if (i_size i <? off) || (wrap32 (off + n) <? off) then ret (-1, [])
  else
    let n := if i_size i <? wrap32 (off + n) then wrap32 (i_size i - off) else n in
    readi_loop (Z.to_nat n) ip n 0 off [].

(** The copy loop of writei; it yields the final value of [off]. *)
Fixpoint writei_loop (fuel : nat) (ip : nat) (src : list Z) (n tot off : Z)
    : M Z :=
  if tot <? n then
    match fuel with
    | O => stuck NoFuel
    | S fuel' =>
      addr <- bmap ip (off / BSIZE) ;;
      let m := Z.min (wrap32 (n - tot)) (wrap32 (BSIZE - off mod BSIZE)) in
      if Z.of_nat (length src) <? tot + m then stuck OutOfBounds
      else
        update_block addr (fun data =>
          take (Z.to_nat (off mod BSIZE)) data ++ slice src tot m
            ++ drop (Z.to_nat (off mod BSIZE + m)) data) ;;;
        writei_loop fuel' ip src n (wrap32 (tot + m)) (wrap32 (off + m))
    end
  else ret off.

Definition writei (ip : nat) (src : list Z) (off n : Z) : M Z :=
  i <- get_inode ip ;;
  if i_type i =? T_DEV then
    if (i_major i <? 0) || (NDEV <=? i_major i) then ret (-1)
    else match devsw_write (i_major i) with
         | None => ret (-1)
         | Some write => write ip src n
         end
  else if (i_size i <? off) || (wrap32 (off + n) <? off) then ret (-1)
  else if MAXFILE * BSIZE <? wrap32 (off + n) then ret (-1)
  else
    off <- writei_loop (Z.to_nat n) ip src n 0 off ;;
    i <- get_inode ip ;;
    (if (0 <? n) && (i_size i <? off) then
       update_inode ip (set_din (set_size off)) ;;;
       iupdate ip
     else ret tt) ;;;
    ret (to_int n).

(** ** Directories *)

Definition namecmp (s t : list Z) : Z := strncmp s t DIRSIZ.

(** Modelled from the spec: struct dirent of fs.h is not among the
    sources; a directory entry is the fixed-size pair of a 16-bit inode
    number and a name of DIRSIZ bytes. *)
Definition sizeof_dirent : Z := 2 + DIRSIZ.
(** Modelled from the spec: the inode number of an entry, its first two
    bytes, little-endian. *)
Definition de_inum (de : list Z) : Z := zget de 0 + 256 * zget de 1.
(** Modelled from the spec: the name of an entry, the DIRSIZ bytes that
    follow the inode number. *)
Definition de_name (de : list Z) : list Z := slice de 2 DIRSIZ.

(** The scan of dirlookup from offset [off]; on a match, the inode and
    the byte offset of the entry. *)
Fixpoint dirlookup_loop (fuel : nat) (dp : nat) (name : list Z) (off : Z)
    : M (option (nat * Z)) :=
  d <- get_inode dp ;;
  if off <? i_size d then
    match fuel with
    | O => stuck NoFuel
    | S fuel' =>
      r <- readi dp off sizeof_dirent ;;
      let '(cnt, de) := r in
      if negb (cnt =? sizeof_dirent) then panic "dirlink read"
      else if de_inum de =? 0 then
        dirlookup_loop fuel' dp name (wrap32 (off + sizeof_dirent))
      else if namecmp name (de_name de) =? 0 then
        (* entry matches path element *)
        ip <- iget (i_dev d) (de_inum de) ;;
        ret (Some (ip, off))
      else dirlookup_loop fuel' dp name (wrap32 (off + sizeof_dirent))
    end
  else ret None.

Definition dirlookup (dp : nat) (name : list Z) : M (option (nat * Z)) :=
  d <- get_inode dp ;;
  if negb (i_type d =? T_DIR) then panic "dirlookup not DIR"
  else dirlookup_loop (Z.to_nat (i_size d)) dp name 0.

(** ** Paths *)

(** [skipelem path name]: [None] is the null pointer; otherwise the
    remaining path and the new contents of the [name] array. *)
Definition skipelem (path name : list Z) : option (list Z * list Z) :=
  let path := skip_slashes path in
  match path with
  | [] => None
  | _ :: _ =>
    let '(s, path) := scan_elem path in
    let len := Z.of_nat (length s) in
    let name :=
      if DIRSIZ <=? len then memmove name s DIRSIZ
      else zset (memmove name s len) len 0 in
    Some (skip_slashes path, name)
  end.

(** The loop of namex; it yields the inode and the [name] array. *)
Fixpoint namex_loop (fuel : nat) (ip : nat) (path : list Z)
    (nameiparent : bool) (name : list Z) : M (option nat * list Z) :=
  match skipelem path name with
  | Some (path, name) =>
    match fuel with
    | O => stuck NoFuel
    | S fuel' =>
      ilock ip ;;;
      i <- get_inode ip ;;
      if negb (i_type i =? T_DIR) then
        iunlockput ip ;;; ret (None, name)
      else if nameiparent && bool_decide (path = []) then
        (* Stop one level early. *)
        iunlock ip ;;; ret (Some ip, name)
      else
        next <- dirlookup ip name ;;
        match next with
        | None => iunlockput ip ;;; ret (None, name)
        | Some (next, _) =>
          iunlockput ip ;;;
          namex_loop fuel' next path nameiparent name
        end
    end
  | None =>
    if nameiparent then iput ip ;;; ret (None, name)
    else ret (Some ip, name)
  end.

Definition namex (path : list Z) (nameiparent : bool) (name : list Z)
    : M (option nat * list Z) :=
  ip <- (if bool_decide (head path = Some slash) then iget ROOTDEV ROOTINO
         else cwd <- gets proc_cwd ;; idup cwd) ;;
  namex_loop (length path) ip path nameiparent name.

(** namei passes a local array of DIRSIZ bytes that is not initialised;
    namex writes an element into it before it reads it, so its first
    contents are immaterial and taken to be zero. *)
Definition namei (path : list Z) : M (option nat) :=
  r <- namex path false (replicate (Z.to_nat DIRSIZ) 0) ;;
  ret (fst r).

Definition nameiparent (path name : list Z) : M (option nat * list Z) :=
  namex path true name.

(** ** Symbolic links: filereadlink and filereadlinki

    The local arrays [name], [result] and [origpath] are byte lists of
    their declared sizes; every store is checked against the array, and a
    store or a string read that leaves it is [OutOfBounds].  [origpath_p]
    is the string that starts at that pointer.  [name] and [result] are
    not initialised by the code, so their first contents are arguments. *)

(** Modelled from the spec: [safestrcpy(dst, src, n)] with [src] an
    array, given by the bytes stored at [dst]. *)
Definition safestrcpy_from (src : list Z) (n : Z) : option (list Z) :=
  if n <=? 0 then Some [] else (.++ [0]) <$> strn (Z.to_nat (n - 1)) src.

(** The three statements that open both branches of the loop body:
    [safestrcpy(&result[result_off], name, MAXPATH)],
    [result_off += strlen(name)], [result[result_off] = 0]. *)
Definition push_name (name result : list Z) (result_off : Z)
    : M (list Z * Z) :=
  bytes <- in_bounds (safestrcpy_from name MAXPATH) ;;
  result <- in_bounds (store result result_off bytes) ;;
  nm <- in_bounds (cstr name) ;;
  let result_off := result_off + strlen nm in
  result <- in_bounds (store result result_off [0]) ;;
  ret (result, result_off).

Inductive walk_result :=
| Done (r : Z) (buf : option (list Z))
| Again (name result origpath : list Z).

(** The branch of an inner path element, the same in both functions. *)
Definition walk_inner (origpath_p name result : list Z) (result_off : Z)
    (origpath : list Z)
    (continue : list Z -> Z -> M walk_result) : M walk_result :=
  r <- push_name name result result_off ;;
  let '(result, result_off) := r in
  path <- in_bounds (cstr result) ;;
  ip <- namei path ;;
  match ip with
  | None => ret (Done (-1) None)
  | Some ip =>
    ilock ip ;;;
    i <- get_inode ip ;;
    if (i_type i =? T_FILE) || (i_type i =? T_DEV) then
      (* Tried to traverse through a file/dev as if it was a directory *)
      ret (Done (-1) None)
    else if i_type i =? T_DIR then
      result <- in_bounds (store result result_off [slash]) ;;
      let result_off := result_off + 1 in
      result <- in_bounds (store result result_off [0]) ;;
      iunlock ip ;;;
      continue result result_off
    else if i_type i =? T_SYMLINK then
      nm <- in_bounds (cstr name) ;;
      let result_off := result_off - strlen nm in
      r <- readi ip 0 MAXPATH ;;
      let '(l, bytes) := r in
      result <- in_bounds (store result result_off bytes) ;;
      iunlock ip ;;;
      result <- in_bounds (store result (result_off + l) [slash]) ;;
      result <- in_bounds (store result (result_off + l + 1)
                                 (safestrcpy_bytes origpath_p MAXPATH)) ;;
      bytes <- in_bounds (safestrcpy_from
                 (if zget result result_off =? slash
                  then drop (Z.to_nat result_off) result   (* Absolute symlink *)
                  else result) MAXPATH) ;;
      origpath <- in_bounds (store origpath 0 bytes) ;;
      ret (Again name result origpath)
    else panic "filereadlink: unknown inode type"
  end.

(** The loop [for(;;)] of filereadlink. *)
Fixpoint readlink_walk (fuel : nat) (bufsiz : Z)
    (origpath_p name result : list Z) (result_off : Z) (origpath : list Z)
    : M walk_result :=
  match skipelem origpath_p name with
  | None => ret (Done (-1) None)
  | Some (origpath_p, name) =>
    match fuel with
    | O => stuck NoFuel
    | S fuel' =>
      if bool_decide (origpath_p = []) then
        (* Last element *)
        r <- push_name name result result_off ;;
        let '(result, result_off) := r in
        path <- in_bounds (cstr result) ;;
        ip <- namei path ;;
        match ip with
        | None => ret (Done (-1) None)
        | Some ip =>
          ilock ip ;;;
          i <- get_inode ip ;;
          if (i_type i =? T_FILE) || (i_type i =? T_DEV) || (i_type i =? T_DIR)
          then
            iunlock ip ;;;
            if bufsiz <? result_off + 1 then ret (Done (-1) None)
            else
              bytes <- in_bounds (safestrcpy_from result MAXPATH) ;;
              ret (Done result_off (cstr bytes))
          else if i_type i =? T_SYMLINK then
            r <- readi ip 0 MAXPATH ;;
            let '(l, bytes) := r in
            origpath <- in_bounds (store origpath 0 bytes) ;;
            iunlock ip ;;;
            origpath <- in_bounds (store origpath l [0]) ;;
            if negb (zget origpath 0 =? slash) then
              (* Relative symlink *)
              nm <- in_bounds (cstr name) ;;
              let result_off := result_off - strlen nm in
              bytes <- in_bounds (safestrcpy_from origpath MAXPATH) ;;
              result <- in_bounds (store result result_off bytes) ;;
              bytes <- in_bounds (safestrcpy_from result MAXPATH) ;;
              origpath <- in_bounds (store origpath 0 bytes) ;;
              ret (Again name result origpath)
            else ret (Again name result origpath)
          else panic "filereadlink: unknown inode type"
        end
      else
        walk_inner origpath_p name result result_off origpath
          (fun result result_off =>
             readlink_walk fuel' bufsiz origpath_p name result result_off origpath)
    end
  end.

(** The loop [for(;;)] of filereadlinki. *)
Fixpoint readlinki_walk (fuel : nat) (bufsiz : Z)
    (origpath_p name result : list Z) (result_off : Z) (origpath : list Z)
    : M walk_result :=
  match skipelem origpath_p name with
  | None => ret (Done (-1) None)
  | Some (origpath_p, name) =>
    match fuel with
    | O => stuck NoFuel
    | S fuel' =>
      if bool_decide (origpath_p = []) then
        (* Last element *)
        r <- push_name name result result_off ;;
        let '(result, result_off) := r in
        if bufsiz <? result_off + 1 then ret (Done (-1) None)
        else
          bytes <- in_bounds (safestrcpy_from result MAXPATH) ;;
          ret (Done result_off (cstr bytes))
      else
        walk_inner origpath_p name result result_off origpath
          (fun result result_off =>
             readlinki_walk fuel' bufsiz origpath_p name result result_off origpath)
    end
  end.

(** From the label [restart] to the next [goto restart] or [return];
    [walk] is the loop of the function at hand.  The loop reads [origpath]
    as a string; an array without a terminator, which strncpy leaves for
    a path of MAXPATH bytes or more, is reported as [OutOfBounds] at once
    rather than when the scan reaches the end of the array. *)
Definition one_pass
    (walk : nat -> list Z -> list Z -> list Z -> Z -> list Z -> M walk_result)
    (name result origpath : list Z) : M walk_result :=
  r <- (if zget origpath 0 =? slash then
          result <- in_bounds (store result 0 [slash]) ;;
          ret (result, 1)
        else ret (result, 0)) ;;
  let '(result, result_off) := r in
  result <- in_bounds (store result result_off [0]) ;;
  origpath_p <- in_bounds (cstr origpath) ;;
  walk (length origpath_p) origpath_p name result result_off origpath.

(** The passes from [restart]; after a substitution the budget is
    decremented and tested before the next pass. *)
Fixpoint restart
    (walk : nat -> list Z -> list Z -> list Z -> Z -> list Z -> M walk_result)
    (loops_left : nat) (name result origpath : list Z)
    : M (Z * option (list Z)) :=
  match loops_left with
  | O => stuck NoFuel
  | S loops_left' =>
    r <- one_pass walk name result origpath ;;
    match r with
    | Done r buf => ret (r, buf)
    | Again name result origpath =>
      match loops_left' with
      | O => ret (-1, None)
      | S _ => restart walk loops_left' name result origpath
      end
    end
  end.

(** The two entry points yield the returned [int] and, when the output
    buffer was written, the string now held in [buf]. *)
Definition filereadlink (name result : list Z) (pathname : list Z)
    (bufsiz : Z) : M (Z * option (list Z)) :=
  if bool_decide (pathname = []) then ret (-1, None)
  else if bool_decide (pathname = [slash]) then ret (2, Some [slash])
  else restart (fun fuel => readlink_walk fuel bufsiz)
         (Z.to_nat MAX_SYMLINK_LOOPS) name result (strncpy_bytes pathname MAXPATH).

Definition filereadlinki (name result : list Z) (pathname : list Z)
    (bufsiz : Z) : M (Z * option (list Z)) :=
  if bool_decide (pathname = []) then ret (-1, None)
  else if bool_decide (pathname = [slash]) then ret (2, Some [slash])
  else restart (fun fuel => readlinki_walk fuel bufsiz)
         (Z.to_nat MAX_SYMLINK_LOOPS) name result (strncpy_bytes pathname MAXPATH).

(** ** The exemption table *)

Definition pids (t : gmap (Z * Z) Z) (inum i : Z) : Z :=
  default 0 (t !! (inum, i)).

(** The first slot among [js] of row [inum] that holds [v]. *)
Fixpoint find_slot (t : gmap (Z * Z) Z) (inum : Z) (js : list Z) (v : Z)
    : option Z :=
  match js with
  | [] => None
  | i :: js' => if pids t inum i =? v then Some i else find_slot t inum js' v
  end.

Definition unlock_inode (ip : nat) : M unit :=
  i <- get_inode ip ;;
  pid <- gets proc_pid ;;
  t <- gets unlocked_inodes ;;
  if negb ((0 <=? i_inum i) && (i_inum i <? NINODES)) then stuck OutOfBounds
  else
    match find_slot t (i_inum i) (seqZ 0 NPROC) pid with
    | Some _ =>
      (* The inode is already unlocked for this pid *)
      ret tt
    | None =>
      (* The inode is not already unlocked, look for the first free slot *)
      match find_slot t (i_inum i) (seqZ 0 NPROC) 0 with
      | Some k => modify (set_unlocked (<[(i_inum i, k) := pid]> t))
      | None => panic "unlock_inodes: No free pid slots found"
      end
    end.

Definition is_inode_unlocked (ip : nat) : M Z :=
  i <- get_inode ip ;;
  pid <- gets proc_pid ;;
  t <- gets unlocked_inodes ;;
  if negb ((0 <=? i_inum i) && (i_inum i <? NINODES)) then stuck OutOfBounds
  else
    match find_slot t (i_inum i) (seqZ 0 NPROC) pid with
    | Some _ => ret 1
    | None => ret 0
    end.

(** ** The password lock (file.c) *)

(** is_inode_open is defined outside the sources at hand. *)
Variable is_inode_open : nat -> M bool.

Definition filefprot (name result : list Z) (pathname password : list Z)
    : M Z :=
  r <- filereadlinki name result pathname MAXPATH ;;
  if fst r <? 0 then ret (-1)
  else
    final_path <- in_bounds (snd r) ;;
    ip <- namei final_path ;;
    match ip with
    | None => ret (-1)
    | Some ip =>
      ilock ip ;;;
      i <- get_inode ip ;;
      if negb (i_type i =? T_FILE) then
        (* Not a file *)
        iunlock ip ;;; ret (-1)
      else if negb (zget (i_password i) 0 =? 0) then
        (* File already has a password *)
        iunlock ip ;;; ret (-1)
      else
        opened <- is_inode_open ip ;;
        if opened then
          (* File is already open by some process *)
          iunlock ip ;;; ret (-1)
        else
          update_inode ip (set_din (fun d =>
            set_password (let bytes := safestrcpy_bytes password PASSLEN in
                          bytes ++ drop (length bytes) (d_password d)) d)) ;;;
          iunlock ip ;;; ret 0
    end.

Definition filefunprot (name result : list Z) (pathname password : list Z)
    : M Z :=
  r <- filereadlinki name result pathname MAXPATH ;;
  if fst r <? 0 then ret (-1)
  else
    final_path <- in_bounds (snd r) ;;
    ip <- namei final_path ;;
    match ip with
    | None => ret (-1)
    | Some ip =>
      ilock ip ;;;
      i <- get_inode ip ;;
      if zget (i_password i) 0 =? 0 then
        (* File has no password (is already unlocked) *)
        iunlock ip ;;; ret 0
      else if negb (strncmp (i_password i) password PASSLEN =? 0) then
        (* Password doesn't match *)
        iunlock ip ;;; ret (-1)
      else
        (* Remove the password: *)
        update_inode ip (set_din (fun d =>
          set_password (zset (d_password d) 0 0) d)) ;;;
        iunlock ip ;;; ret 0
    end.

Definition filefunlock (name result : list Z) (pathname password : list Z)
    : M Z :=
  r <- filereadlinki name result pathname MAXPATH ;;
  if fst r <? 0 then ret (-1)
  else
    final_path <- in_bounds (snd r) ;;
    ip <- namei final_path ;;
    match ip with
    | None => ret (-1)
    | Some ip =>
      ilock ip ;;;
      i <- get_inode ip ;;
      if zget (i_password i) 0 =? 0 then
        (* File has no password (is unlocked). This is considered an error *)
        iunlock ip ;;; ret (-1)
      else if negb (strncmp (i_password i) password PASSLEN =? 0) then
        (* Password doesn't match *)
        iunlock ip ;;; ret (-1)
      else
        unlock_inode ip ;;;
        iunlock ip ;;; ret 0
    end.

End Kernel.

(** ** Notions used to state properties *)

Section Notions.
Context `{fs_params}.

Definition nonzero (a : Z) : option Z := if a =? 0 then None else Some a.

Definition block_of (s : state) (bno : Z) : list Z :=
  default zero_block (blocks s !! bno).

(** The block that holds block [bn] of the content of inode [i], when
    every entry of the block map on the way to it is set. *)
Definition block_addr (s : state) (i : inode) (bn : Z) : option Z :=
  if bn <? NDIRECT then nonzero (zget (i_addrs i) bn)
  else
    let bn := bn - NDIRECT in
    if bn <? NINDIRECT then
      match nonzero (zget (i_addrs i) NDIRECT) with
      | Some a => nonzero (get_uint (block_of s a) bn)
      | None => None
      end
    else
      let bn := bn - NINDIRECT in
      if bn <? NINDIRECT * NINDIRECT then
        match nonzero (i_indirect2 i) with
        | Some a =>
          match nonzero (get_uint (block_of s a) (bn / NINDIRECT)) with
          | Some a1 => nonzero (get_uint (block_of s a1) (bn mod NINDIRECT))
          | None => None
          end
        | None => None
        end
      else None.

(** The bit of block [b] in the free bitmap. *)
Definition in_use (s : state) (b : Z) : bool :=
  negb (Z.land (zget (default zero_block (bitmap s !! (b / BPB))) (b mod BPB / 8))
               (Z.shiftl 1 (b mod BPB mod 8)) =? 0).

(** What the three password routines do first: canonicalize the path
    leaving a final link alone, look the canonical path up, and lock the
    inode found.  [None] stands for their early [return -1]. *)
Definition lock_target (devsw_read : Z -> option (nat -> Z -> M (Z * list Z)))
    (name result pathname : list Z) : M (option nat) :=
  r <- filereadlinki devsw_read name result pathname MAXPATH ;;
  if fst r <? 0 then ret None
  else
    final_path <- in_bounds (snd r) ;;
    ip <- namei devsw_read final_path ;;
    match ip with
    | None => ret None
    | Some ip => ilock ip ;;; ret (Some ip)
    end.

(** The state once the busy flag of [ip] is cleared, as iunlock does. *)
Definition released (ip : nat) (s : state) : state :=
  set_icache
    (alter (fun i => set_flags (Z.land (i_flags i) (Z.lnot I_BUSY)) i) ip (icache s)) s.

(** A routine that, when it returns, has left the exemption table and
    the identity of the calling process as they were. *)
Definition keeps_table {A} (m : M A) : Prop :=
  forall s a s', m s = Ret a s' ->
    unlocked_inodes s' = unlocked_inodes s /\ proc_pid s' = proc_pid s.

(** The state after balloc has handed out block [x]: its bit is set and
    the block is zeroed. *)
Definition allocated (s : state) (x : Z) : state :=
  let page := default zero_block (bitmap s !! (x / BPB)) in
  let byte := zget page (x mod BPB / 8) in
  set_blocks (<[x := zero_block]> (blocks s))
    (set_bitmap
       (<[x / BPB := zset page (x mod BPB / 8)
                       (Z.lor byte (Z.shiftl 1 (x mod BPB mod 8)) mod 256)]>
          (bitmap s)) s).

(** The sizes a formatted disk has: a block count that fits a [uint],
    and BSIZE bytes in every bitmap page and every block. *)
Definition disk_sized (s : state) : Prop :=
  sb_size s <= 2 ^ 32
  /\ map_Forall (fun _ pg => length pg = Z.to_nat BSIZE) (bitmap s)
  /\ map_Forall (fun _ blk => length blk = Z.to_nat BSIZE) (blocks s).

(** The spec's [canonicalize(path, resolve_final)], and the loop of the
    routine it stands for. *)
Definition canonicalize (devsw_read : Z -> option (nat -> Z -> M (Z * list Z)))
    (resolve_final : bool) :=
  if resolve_final then filereadlink devsw_read else filereadlinki devsw_read.

Definition walk_of (devsw_read : Z -> option (nat -> Z -> M (Z * list Z)))
    (resolve_final : bool) (bufsiz : Z) (fuel : nat) :=
  if resolve_final then readlink_walk devsw_read fuel bufsiz
  else readlinki_walk devsw_read fuel bufsiz.

(** [k] passes in a row that each end in the substitution of a link: the
    arrays and the state they leave, or [None] if one of them ends
    otherwise. *)
Fixpoint substitute
    (walk : nat -> list Z -> list Z -> list Z -> Z -> list Z -> M walk_result)
    (k : nat) (name result origpath : list Z) (s : state)
    : option (list Z * list Z * list Z * state) :=
  match k with
  | O => Some (name, result, origpath, s)
  | S k' =>
    match one_pass walk name result origpath s with
    | Ret (Again name result origpath) s' =>
      substitute walk k' name result origpath s'
    | _ => None
    end
  end.

(** The portion of [result] before [result_off] is a string in the
    making: it has [result_off] bytes, none of them NUL; and the same
    with a NUL right after it. *)
Definition partial (result : list Z) (result_off : Z) : Prop :=
  exists pre rest, result = pre ++ rest
    /\ Forall (fun c => c ≠ 0) pre /\ result_off = Z.of_nat (length pre).

Definition terminated (result : list Z) (result_off : Z) : Prop :=
  exists pre rest, result = pre ++ 0 :: rest
    /\ Forall (fun c => c ≠ 0) pre /\ result_off = Z.of_nat (length pre).

(** What a pass may end with: a value that, when it reports success, is
    the length of the string put in [buf]; or a restart with [result]
    still of its declared size. *)
Definition consistent (size : nat) (w : walk_result) : Prop :=
  match w with
  | Done r buf => 0 <= r -> exists str, buf = Some str /\ r = strlen str
  | Again _ result _ => length result = size
  end.

(** iput applied [r] times to the same inode. *)
Fixpoint iput_times (r : nat) (ip : nat) : M unit :=
  match r with
  | O => ret tt
  | S r' => iput ip ;;; iput_times r' ip
  end.

End Notions.

(** ** A concrete configuration and sample disks

    The values of stock xv6 for its constants, and values of the same
    magnitude for the ones the extension adds. *)

Module Sample.

#[export] Instance params : fs_params := {|
  BSIZE := 512; NDIRECT := 12; NINDIRECT := 128;
  MAXFILE := 12 + 128 + 128 * 128;
  DIRSIZ := 14; MAXPATH := 128; PASSLEN := 10; NPROC := 64;
  NINODE := 50; NDEV := 10; ROOTDEV := 1; ROOTINO := 1
|}.

Definition no_read : Z -> option (nat -> Z -> M (Z * list Z)) := fun _ => None.
Definition no_write : Z -> option (nat -> list Z -> Z -> M Z) := fun _ => None.

Definition pad (n : Z) (l : list Z) : list Z :=
  take (Z.to_nat n) l ++ replicate (Z.to_nat n - length l)%nat 0.

Definition mk_dirent (inum : Z) (name : string) : list Z :=
  [inum mod 256; inum / 256] ++ pad DIRSIZ (bytes_of name).

(** An object of the root directory: its name, its type, its content and
    its password. *)
Definition object : Type := string * Z * list Z * list Z.

Definition obj_dinode (k : Z) (o : object) : dinode :=
  let '(_, ty, content, pw) := o in
  mk_dinode ty 0 0 1 (Z.of_nat (length content))
            (pad (NDIRECT + 1) [60 + k]) 0 (pad PASSLEN pw).

Definition free_inode : inode := mk_inode 0 0 0 0 zero_dinode.

(** A disk of 1024 blocks whose first 128 are in use.  Inode 1 is the root
    directory, with its entries in block 59; the object at position [k]
    of [objs] is inode [2 + k] with its content in block [60 + k].  The
    cache holds the root inode once, as the current directory of process
    [pid]. *)
Definition disk (pid : Z) (objs : list object) : state :=
  let n := Z.of_nat (length objs) in
  let ks := seqZ 0 n in
  let entries := zip ks objs in
  let root_content :=
    concat (map (fun '(k, o) => mk_dirent (2 + k) (fst (fst (fst o)))) entries) in
  mk_state 1024 200
    {[ 0 := pad BSIZE (replicate 16 255) ]}
    (<[1 := mk_dinode T_DIR 0 0 1 (Z.of_nat (length root_content))
                      (pad (NDIRECT + 1) [59]) 0 (pad PASSLEN [])]>
       (list_to_map (map (fun '(k, o) => (2 + k, obj_dinode k o)) entries)))
    (<[59 := pad BSIZE root_content]>
       (list_to_map (map (fun '(k, o) => (60 + k, pad BSIZE (snd (fst o)))) entries)))
    (mk_inode 1 1 1 0 zero_dinode :: replicate 49 free_inode)
    ∅ pid 0.

Definition file (name : string) (content : string) : object :=
  (name, T_FILE, bytes_of content, []).
Definition locked_file (name : string) (content : string) (pw : string) : object :=
  (name, T_FILE, bytes_of content, bytes_of pw).
Definition dir (name : string) : object := (name, T_DIR, [], []).
Definition symlink (name : string) (target : string) : object :=
  (name, T_SYMLINK, bytes_of target, []).

(** The uninitialised arrays of filereadlink, here holding 0xAA. *)
Definition stack_name : list Z := replicate (Z.to_nat (DIRSIZ + 1)) 170.
Definition stack_result : list Z := replicate (Z.to_nat MAXPATH) 170.

Definition readlink (path : string) (s : state) : outcome (Z * option (list Z)) :=
  filereadlink no_read stack_name stack_result (bytes_of path) MAXPATH s.
Definition readlinki (path : string) (s : state) : outcome (Z * option (list Z)) :=
  filereadlinki no_read stack_name stack_result (bytes_of path) MAXPATH s.

(** The value returned, with the state left out, and the state alone. *)
Definition result_of {A} (o : outcome A) : option A + (string + fault) :=
  match o with
  | Ret a _ => inl (Some a)
  | Panic msg => inr (inl msg)
  | Stuck f => inr (inr f)
  end.

Definition state_of {A} (o : outcome A) (s : state) : state :=
  match o with
  | Ret _ s' => s'
  | _ => s
  end.

(** The usual sequence on a path: namei and ilock, and then iunlock. *)
Definition lock_path (path : string) : M (option nat) :=
  ip <- namei no_read (bytes_of path) ;;
  match ip with
  | Some ip => ilock ip ;;; ret (Some ip)
  | None => ret None
  end.

Definition hold_path (path : string) : M (option nat) :=
  ip <- lock_path path ;;
  match ip with
  | Some ip => iunlock ip ;;; ret (Some ip)
  | None => ret None
  end.

(** A regular file "/f" holding "hello", a directory "/d", a link "/a" to
    "/f", and two links "/x" and "/y" to each other. *)
Definition small : state :=
  disk 7 [file "f" "hello"; dir "d"; symlink "a" "/f";
          symlink "x" "/y"; symlink "y" "/x"].

(** [small] with "/f" looked up and locked, and with it unlocked again;
    its inode is then in slot 1 of the cache. *)
Definition small_locked : state := state_of (lock_path "/f" small) small.
Definition small_held : state := state_of (hold_path "/f" small) small.

(** [small] with the root directory locked, in slot 0 of the cache. *)
Definition small_root : state := state_of (lock_path "/" small) small.

(** "/f" of [small_locked] given a block at each level of its map and
    then unlinked while the reference is still held. *)
Definition set_nlink (v : Z) (d : dinode) : dinode :=
  mk_dinode (d_type d) (d_major d) (d_minor d) v (d_size d) (d_addrs d)
            (d_indirect2 d) (d_password d).

Definition grow_and_unlink : M unit :=
  bmap 1 1 ;;; bmap 1 NDIRECT ;;; bmap 1 (NDIRECT + NINDIRECT + 5) ;;;
  update_inode 1 (set_din (set_nlink 0)) ;;;
  iupdate 1 ;;;
  iunlock 1.

Definition small_unlinked : state :=
  state_of (grow_and_unlink small_locked) small.

(** A file "/f" that the password "pw" protects. *)
Definition guarded : state := disk 7 [locked_file "f" "hello" "pw"].

(** [guarded] with "/f" looked up, locked and unlocked: its inode is in
    slot 1 of the cache, with one reference. *)
Definition guarded_held : state := state_of (hold_path "/f" guarded) guarded.

(** [guarded] with every slot of the row of "/f" taken by process 9. *)
Definition guarded_crowded : state :=
  set_unlocked (list_to_map ((fun j => ((2, j), 9)) <$> seqZ 0 NPROC)) guarded.

(** A link "/a" to "a/bbbbbbbbbbbbb": each substitution makes the path
    fourteen bytes longer. *)
Definition growing : state := disk 7 [symlink "a" "a/bbbbbbbbbbbbb"].

(** No file is open. *)
Definition none_open : nat -> M bool := fun _ => ret false.

Definition fprot (path pw : string) : M Z :=
  filefprot no_read none_open stack_name stack_result (bytes_of path) (bytes_of pw).
Definition funprot (path pw : string) : M Z :=
  filefunprot no_read stack_name stack_result (bytes_of path) (bytes_of pw).
Definition funlock (path pw : string) : M Z :=
  filefunlock no_read stack_name stack_result (bytes_of path) (bytes_of pw).

(** The state that lock_target leaves for [path] in [s], and the inode
    that slot [ip] of its cache then holds. *)
Definition target_state (path : string) (s : state) : state :=
  state_of (lock_target no_read stack_name stack_result (bytes_of path) s) s.
Definition target_inode (path : string) (s : state) (ip : nat) : inode :=
  default free_inode (icache (target_state path s) !! ip).

(** [guarded] once process 7 has been granted the exemption for "/f". *)
Definition guarded_exempt : state := state_of (funlock "/f" "pw" guarded) guarded.

(** The password, as a string, of the inode in slot [ip]. *)
Definition password_at (ip : nat) (s : state) : option (list Z) :=
  i ← icache s !! ip; cstr (i_password i).

(** Sixteen links in a row: "/l01" to "/l02" and so on, "/l16" to the
    regular file "/f". *)
Definition chain16 : state :=
  disk 7 [file "f" "hello";
    symlink "l01" "/l02"; symlink "l02" "/l03"; symlink "l03" "/l04";
    symlink "l04" "/l05"; symlink "l05" "/l06"; symlink "l06" "/l07";
    symlink "l07" "/l08"; symlink "l08" "/l09"; symlink "l09" "/l10";
    symlink "l10" "/l11"; symlink "l11" "/l12"; symlink "l12" "/l13";
    symlink "l13" "/l14"; symlink "l14" "/l15"; symlink "l15" "/l16";
    symlink "l16" "/f"].

End Sample.

(** * Properties *)

Local Open Scope kernel_scope.

(** ** Path elements *)

Lemma skip_slashes_lead (lead p : list Z) :
  Forall (fun c => c = slash) lead -> skip_slashes (lead ++ p) = skip_slashes p.
Proof.
  induction 1 as [|c lead Hc _ IH]; simpl; [done|].
  subst c. by rewrite ?Z.eqb_refl.
Qed.

Lemma skip_slashes_elem (comp rest : list Z) :
  comp ≠ [] -> Forall (fun c => c ≠ slash) comp ->
  skip_slashes (comp ++ rest) = comp ++ rest.
Proof.
  destruct comp as [|c comp]; [done|]. intros _ Hc.
  inversion Hc as [|? ? Hne _]; subst. simpl.
  by destruct (Z.eqb_spec c slash).
Qed.

Lemma scan_elem_app (comp rest : list Z) :
  Forall (fun c => c ≠ slash) comp ->
  rest = [] \/ head rest = Some slash ->
  scan_elem (comp ++ rest) = (comp, rest).
Proof.
  intros Hc Hrest. induction Hc as [|c comp Hne _ IH]; simpl.
  - destruct Hrest as [->|Hh]; [done|].
    destruct rest as [|d rest]; [done|]. simpl in Hh. injection Hh as ->.
    simpl. by rewrite ?Z.eqb_refl.
  - destruct (Z.eqb_spec c slash); [done|]. by rewrite IH.
Qed.

Lemma skip_slashes_head (p : list Z) : head (skip_slashes p) ≠ Some slash.
Proof.
  induction p as [|c p IH]; simpl; [done|].
  destruct (Z.eqb_spec c slash); [done|]. simpl. congruence.
Qed.

Lemma insert_drop_head (l : list Z) (n : nat) (v : Z) :
  (n < length l)%nat -> <[0%nat := v]> (drop n l) = v :: drop (S n) l.
Proof.
  revert n. induction l as [|x l IH]; intros [|n] Hn; simpl in *; try lia.
  - by rewrite drop_0.
  - apply IH. lia.
Qed.

Section PathFacts.
Context `{fs_params}.

(** C9.  skipelem on a path whose next element is [comp]: when [comp] has
    DIRSIZ bytes or more, exactly its first DIRSIZ bytes are stored in
    [name] and nothing else of the array is written, so no terminator;
    when it is shorter, it is stored followed by a NUL; either way the
    remainder returned has the slashes after the element stripped. *)
Theorem skipelem_copies_element (lead comp rest name : list Z) :
  Forall (fun c => c = slash) lead ->
  comp ≠ [] ->
  Forall (fun c => c ≠ slash) comp ->
  rest = [] \/ head rest = Some slash ->
  0 <= DIRSIZ <= Z.of_nat (length name) ->
  exists name',
    skipelem (lead ++ comp ++ rest) name = Some (skip_slashes rest, name')
    /\ head (skip_slashes rest) ≠ Some slash
    /\ (DIRSIZ <= Z.of_nat (length comp) ->
        name' = take (Z.to_nat DIRSIZ) comp ++ drop (Z.to_nat DIRSIZ) name)
    /\ (Z.of_nat (length comp) < DIRSIZ ->
        name' = comp ++ 0 :: drop (S (length comp)) name).
Proof.
  intros Hlead Hne Hcomp Hrest Hsz.
  unfold skipelem.
  rewrite skip_slashes_lead by done.
  rewrite skip_slashes_elem by done.
  destruct (comp ++ rest) as [|c l] eqn:Hcr.
  { destruct comp; simplify_eq/=. }
  rewrite <- Hcr, scan_elem_app by done.
  eexists. split; [reflexivity|]. split; [apply skip_slashes_head|].
  split; intros Hlen.
  - destruct (Z.leb_spec DIRSIZ (Z.of_nat (length comp))); [done|lia].
  - destruct (Z.leb_spec DIRSIZ (Z.of_nat (length comp))); [lia|].
    unfold zset, memmove. rewrite Nat2Z.id, firstn_all.
    rewrite insert_app_r_alt by lia.
    rewrite Nat.sub_diag. f_equal.
    apply insert_drop_head. lia.
Qed.

End PathFacts.

(** ** Machine integers *)

Lemma wrap32_small (x : Z) : 0 <= x < 2 ^ 32 -> wrap32 x = x.
Proof. intros. unfold wrap32. by rewrite Z.mod_small. Qed.

Lemma wrap32_overflow (x : Z) : 2 ^ 32 <= x < 2 ^ 33 -> wrap32 x = x - 2 ^ 32.
Proof.
  intros. unfold wrap32.
  symmetry. apply (Z.mod_unique x (2 ^ 32) 1); lia.
Qed.

Lemma to_int_small (x : Z) : 0 <= x < 2 ^ 31 -> to_int x = x.
Proof.
  intros. unfold to_int. rewrite wrap32_small by lia.
  destruct (Z.ltb_spec x (2 ^ 31)); lia.
Qed.

(** ** Reasoning in the monad *)

Lemma bind_Ret {A B} (m : M A) (k : A -> M B) (s s' : state) (a : A) :
  m s = Ret a s' -> bind m k s = k a s'.
Proof. intros Hm. unfold bind. by rewrite Hm. Qed.

Lemma bind_Panic {A B} (m : M A) (k : A -> M B) (s : state) msg :
  m s = Panic msg -> bind m k s = Panic msg.
Proof. intros Hm. unfold bind. by rewrite Hm. Qed.

Lemma bind_Ret_inv {A B} (m : M A) (k : A -> M B) (s s' : state) (b : B) :
  bind m k s = Ret b s' -> exists a s1, m s = Ret a s1 /\ k a s1 = Ret b s'.
Proof. unfold bind. destruct (m s) as [a s1| |]; [eauto|done|done]. Qed.

Lemma in_bounds_Ret_inv {A} (o : option A) (s s' : state) (a : A) :
  in_bounds o s = Ret a s' -> o = Some a /\ s' = s.
Proof. destruct o; simpl; [|done]. unfold ret. by intros [= -> ->]. Qed.

Section InodeFacts.
Context `{fs_params}.
Variable devsw_read : Z -> option (nat -> Z -> M (Z * list Z)).
Variable devsw_write : Z -> option (nat -> list Z -> Z -> M Z).

Lemma get_inode_Ret (s : state) (ip : nat) (i : inode) :
  icache s !! ip = Some i -> get_inode ip s = Ret i s.
Proof. intros Hip. unfold get_inode, bind, gets. by rewrite Hip. Qed.

(** C10.  writei on an inode that is not a device, at an offset beyond the
    size of the file, returns -1 and changes nothing; an offset up to the
    size passes that guard, and the write goes on to the copy loop. *)
Theorem writei_beyond_size (s : state) (ip : nat) (i : inode)
    (src : list Z) (off n : Z) :
  icache s !! ip = Some i ->
  i_type i ≠ T_DEV ->
  (i_size i < off -> writei devsw_write ip src off n s = Ret (-1) s)
  /\ (0 <= off <= i_size i -> 0 <= n -> off + n < 2 ^ 32 ->
      off + n <= MAXFILE * BSIZE ->
      writei devsw_write ip src off n s =
        (off' <- writei_loop (Z.to_nat n) ip src n 0 off ;;
         i' <- get_inode ip ;;
         (if (0 <? n) && (i_size i' <? off') then
            update_inode ip (set_din (set_size off')) ;;; iupdate ip
          else ret tt) ;;;
         ret (to_int n)) s).
Proof.
  intros Hip Hty. split.
  - intros Hoff. unfold writei.
    rewrite (bind_Ret _ _ _ _ _ (get_inode_Ret _ _ _ Hip)).
    destruct (Z.eqb_spec (i_type i) T_DEV); [done|].
    destruct (Z.ltb_spec (i_size i) off); [done|lia].
  - intros Hoff Hn Hov Hmax. unfold writei.
    rewrite (bind_Ret _ _ _ _ _ (get_inode_Ret _ _ _ Hip)).
    destruct (Z.eqb_spec (i_type i) T_DEV); [done|].
    rewrite wrap32_small by lia.
    destruct (Z.ltb_spec (i_size i) off); [lia|].
    destruct (Z.ltb_spec (off + n) off); [lia|]. simpl.
    destruct (Z.ltb_spec (MAXFILE * BSIZE) (off + n)); [lia|done].
Qed.

(** ** Directory lookup *)

(** The scan of a directory in which no entry in use carries the name
    runs to the end and yields the null pointer. *)
Lemma dirlookup_loop_no_match (s : state) (dp : nat) (d : inode)
    (name : list Z) :
  icache s !! dp = Some d ->
  0 < sizeof_dirent ->
  i_size d + sizeof_dirent <= 2 ^ 32 ->
  (forall off, 0 <= off < i_size d -> off mod sizeof_dirent = 0 ->
     exists de, readi devsw_read dp off sizeof_dirent s = Ret (sizeof_dirent, de) s
                /\ (de_inum de = 0 \/ namecmp name (de_name de) ≠ 0)) ->
  forall (fuel : nat) (off : Z),
    0 <= off -> off mod sizeof_dirent = 0 ->
    i_size d - off <= Z.of_nat fuel ->
    dirlookup_loop devsw_read fuel dp name off s = Ret None s.
Proof.
  intros Hdp Hsz Hmax Hent fuel.
  induction fuel as [|fuel IH]; intros off Hoff Hmod Hfuel.
  - simpl. rewrite (bind_Ret _ _ _ _ _ (get_inode_Ret _ _ _ Hdp)).
    destruct (Z.ltb_spec off (i_size d)); [lia|done].
  - simpl. rewrite (bind_Ret _ _ _ _ _ (get_inode_Ret _ _ _ Hdp)).
    destruct (Z.ltb_spec off (i_size d)); [|done].
    destruct (Hent off) as (de & Hrd & Hde); [lia|done|].
    rewrite (bind_Ret _ _ _ _ _ Hrd).
    rewrite Z.eqb_refl. simpl.
    assert (Hnext : dirlookup_loop devsw_read fuel dp name
                      (wrap32 (off + sizeof_dirent)) s = Ret None s).
    { rewrite wrap32_small by lia.
      apply IH; [lia| |lia].
      rewrite <- (Z.mul_1_l sizeof_dirent) at 1.
      by rewrite Z.mod_add by lia. }
    destruct Hde as [Hfree|Hname].
    + by rewrite Hfree, Z.eqb_refl.
    + destruct (Z.eqb_spec (de_inum de) 0); [done|].
      by destruct (Z.eqb_spec (namecmp name (de_name de)) 0).
Qed.

(** C3, as amended.  dirlookup on an inode that is not a directory halts
    in panic, for every name; the null result is what it yields on a
    directory none of whose entries in use carries the name. *)
Theorem dirlookup_not_dir_panics (s : state) (dp : nat) (d : inode)
    (name : list Z) :
  icache s !! dp = Some d ->
  (i_type d ≠ T_DIR ->
   dirlookup devsw_read dp name s = Panic "dirlookup not DIR")
  /\ (i_type d = T_DIR -> 0 < sizeof_dirent ->
      0 <= i_size d -> i_size d + sizeof_dirent <= 2 ^ 32 ->
      (forall off, 0 <= off < i_size d -> off mod sizeof_dirent = 0 ->
         exists de, readi devsw_read dp off sizeof_dirent s = Ret (sizeof_dirent, de) s
                    /\ (de_inum de = 0 \/ namecmp name (de_name de) ≠ 0)) ->
      dirlookup devsw_read dp name s = Ret None s).
Proof.
  intros Hdp. split.
  - intros Hty. unfold dirlookup.
    rewrite (bind_Ret _ _ _ _ _ (get_inode_Ret _ _ _ Hdp)).
    by destruct (Z.eqb_spec (i_type d) T_DIR).
  - intros Hty Hsz Hpos Hmax Hent. unfold dirlookup.
    rewrite (bind_Ret _ _ _ _ _ (get_inode_Ret _ _ _ Hdp)).
    destruct (Z.eqb_spec (i_type d) T_DIR); [|done]. simpl.
    eapply dirlookup_loop_no_match; eauto; lia.
Qed.

End InodeFacts.

Section ContentFacts.
Context `{fs_params}.
Variable devsw_read : Z -> option (nat -> Z -> M (Z * list Z)).

Lemma nonzero_Some (a b : Z) : nonzero a = Some b -> a = b /\ b ≠ 0.
Proof. unfold nonzero. destruct (Z.eqb_spec a 0); [done|]. by intros [= <-]. Qed.

Lemma bread_Ret (s : state) (bno : Z) : bread bno s = Ret (block_of s bno) s.
Proof. done. Qed.

(** bmap on a block that is mapped returns its address and changes
    nothing. *)
Lemma bmap_mapped (s : state) (ip : nat) (i : inode) (bn a : Z) :
  icache s !! ip = Some i ->
  block_addr s i bn = Some a ->
  bmap ip bn s = Ret a s.
Proof.
  intros Hip Hmap. unfold bmap, block_addr in *.
  rewrite (bind_Ret _ _ _ _ _ (get_inode_Ret _ _ _ Hip)).
  destruct (bn <? NDIRECT).
  { apply nonzero_Some in Hmap as [Ha Hnz]. rewrite Ha.
    by destruct (Z.eqb_spec a 0). }
  destruct (bn - NDIRECT <? NINDIRECT).
  { destruct (nonzero (zget (i_addrs i) NDIRECT)) as [a0|] eqn:Ha0; [|done].
    apply nonzero_Some in Ha0 as [Ha0 Hnz0]. rewrite Ha0.
    apply nonzero_Some in Hmap as [Ha Hnz].
    destruct (Z.eqb_spec a0 0); [done|].
    unfold bind at 1. unfold ret at 1.
    rewrite (bind_Ret _ _ _ _ _ (bread_Ret _ _)).
    rewrite Ha. by destruct (Z.eqb_spec a 0). }
  destruct (bn - NDIRECT - NINDIRECT <? NINDIRECT * NINDIRECT); [|done].
  destruct (nonzero (i_indirect2 i)) as [a0|] eqn:Ha0; [|done].
  apply nonzero_Some in Ha0 as [Ha0 Hnz0]. rewrite Ha0.
  destruct (nonzero (get_uint (block_of s a0) _)) as [a1|] eqn:Ha1; [|done].
  apply nonzero_Some in Ha1 as [Ha1 Hnz1].
  apply nonzero_Some in Hmap as [Ha Hnz].
  destruct (Z.eqb_spec a0 0); [done|].
  unfold bind at 1. unfold ret at 1.
  rewrite (bind_Ret _ _ _ _ _ (bread_Ret _ _)).
  rewrite Ha1. destruct (Z.eqb_spec a1 0); [done|].
  unfold bind at 1. unfold ret at 1.
  rewrite (bind_Ret _ _ _ _ _ (bread_Ret _ _)).
  rewrite Ha. by destruct (Z.eqb_spec a 0).
Qed.

(** The copy loop of readi over blocks that are all mapped returns the
    count it was given and changes nothing. *)
Lemma readi_loop_mapped (s : state) (ip : nat) (i : inode) (n : Z) :
  icache s !! ip = Some i ->
  0 < BSIZE < 2 ^ 32 ->
  n < 2 ^ 32 ->
  forall (fuel : nat) (tot off : Z) (dst : list Z),
    0 <= tot <= n -> n - tot <= Z.of_nat fuel ->
    0 <= off -> off + (n - tot) < 2 ^ 32 ->
    (forall bn, off / BSIZE <= bn <= (off + (n - tot) - 1) / BSIZE ->
       is_Some (block_addr s i bn)) ->
    exists bytes, readi_loop fuel ip n tot off dst s = Ret (to_int n, bytes) s.
Proof.
  intros Hip HB Hn fuel.
  induction fuel as [|fuel IH]; intros tot off dst Htot Hfuel Hoff Hov Hmap.
  - simpl. destruct (Z.ltb_spec tot n); [lia|]. by eexists.
  - simpl. destruct (Z.ltb_spec tot n); [|by eexists].
    destruct (Hmap (off / BSIZE)) as [a Ha].
    { split; [lia|]. apply Z.div_le_mono; lia. }
    rewrite (bind_Ret _ _ _ _ _ (bmap_mapped _ _ _ _ _ Hip Ha)).
    rewrite (bind_Ret _ _ _ _ _ (bread_Ret _ _)).
    assert (0 <= off mod BSIZE < BSIZE) as Hm by (apply Z.mod_pos_bound; lia).
    rewrite (wrap32_small (n - tot)) by lia.
    rewrite (wrap32_small (BSIZE - off mod BSIZE)) by lia.
    set (m := Z.min (n - tot) (BSIZE - off mod BSIZE)).
    assert (1 <= m <= n - tot) by lia.
    rewrite (wrap32_small (tot + m)) by lia.
    rewrite (wrap32_small (off + m)) by lia.
    apply IH; try lia.
    intros bn Hbn. apply Hmap.
    replace (off + m + (n - (tot + m))) with (off + (n - tot)) in Hbn by lia.
    split; [|lia].
    etrans; [|apply Hbn]. apply Z.div_le_mono; lia.
Qed.

(** Whatever the copy loop of readi returns, its count is the one it was
    given. *)
Lemma readi_loop_count (ip : nat) (n : Z) (fuel : nat) (tot off : Z)
    (dst : list Z) (s s' : state) (r : Z) (bytes : list Z) :
  readi_loop fuel ip n tot off dst s = Ret (r, bytes) s' -> r = to_int n.
Proof.
  revert tot off dst s.
  induction fuel as [|fuel IH]; intros tot off dst s Hr; simpl in Hr.
  - destruct (tot <? n); [done|]. by injection Hr as <- _ _.
  - destruct (tot <? n); [|by injection Hr as <- _ _].
    apply bind_Ret_inv in Hr as (addr & s1 & _ & Hr).
    apply bind_Ret_inv in Hr as (data & s2 & _ & Hr).
    by eapply IH.
Qed.

(** C2, as amended.  readi on an inode that is not a device: an offset
    beyond the size is rejected with -1; at the size itself the read
    succeeds with no bytes; a read that would pass the size returns
    size - off whenever it returns, and it does return, leaving the state
    as it was, when the blocks it covers are mapped; a length that
    overflows the offset arithmetic is rejected with -1. *)
Theorem readi_clamps_to_size (s : state) (ip : nat) (i : inode) (off n : Z) :
  icache s !! ip = Some i ->
  i_type i ≠ T_DEV ->
  0 < BSIZE < 2 ^ 32 ->
  0 <= off < 2 ^ 32 -> 0 <= n < 2 ^ 32 -> 0 <= i_size i < 2 ^ 31 ->
  (i_size i < off -> readi devsw_read ip off n s = Ret (-1, []) s)
  /\ (off = i_size i -> off + n < 2 ^ 32 ->
      readi devsw_read ip off n s = Ret (0, []) s)
  /\ (off <= i_size i < off + n -> off + n < 2 ^ 32 ->
      (forall r bytes s',
         readi devsw_read ip off n s = Ret (r, bytes) s' -> r = i_size i - off)
      /\ ((forall bn, off / BSIZE <= bn <= (i_size i - 1) / BSIZE ->
             is_Some (block_addr s i bn)) ->
          exists bytes,
            readi devsw_read ip off n s = Ret (i_size i - off, bytes) s))
  /\ (2 ^ 32 <= off + n -> readi devsw_read ip off n s = Ret (-1, []) s).
Proof.
  intros Hip Hty HB Hoff Hn Hsz.
  assert (Hstart : forall k : inode -> M (Z * list Z),
            bind (get_inode ip) k s = k i s).
  { intros k. apply bind_Ret, get_inode_Ret, Hip. }
  unfold readi. rewrite Hstart.
  destruct (Z.eqb_spec (i_type i) T_DEV) as [|_]; [done|].
  split; [|split; [|split; [intros Hrange Hov; split|]]].
  - intros Hlt. by destruct (Z.ltb_spec (i_size i) off); [|lia].
  - intros -> Hov. rewrite wrap32_small by lia.
    destruct (Z.ltb_spec (i_size i) (i_size i)); [lia|].
    destruct (Z.ltb_spec (i_size i + n) (i_size i)); [lia|]. simpl.
    destruct (Z.ltb_spec (i_size i) (i_size i + n)).
    + rewrite Z.sub_diag. done.
    + assert (n = 0) as -> by lia. done.
  - intros r bytes s' Hr. rewrite wrap32_small in Hr by lia.
    destruct (Z.ltb_spec (i_size i) off); [lia|].
    destruct (Z.ltb_spec (off + n) off); [lia|]. simpl in Hr.
    destruct (Z.ltb_spec (i_size i) (off + n)); [|lia].
    rewrite wrap32_small in Hr by lia.
    apply readi_loop_count in Hr as ->. apply to_int_small. lia.
  - intros Hmap. rewrite wrap32_small by lia.
    destruct (Z.ltb_spec (i_size i) off); [lia|].
    destruct (Z.ltb_spec (off + n) off); [lia|]. simpl.
    destruct (Z.ltb_spec (i_size i) (off + n)); [|lia].
    rewrite wrap32_small by lia.
    destruct (readi_loop_mapped s ip i (i_size i - off) Hip HB ltac:(lia)
                (Z.to_nat (i_size i - off)) 0 off []) as [bytes Hloop];
      try lia.
    { intros bn Hbn. apply Hmap.
      replace (off + (i_size i - off - 0) - 1) with (i_size i - 1) in Hbn by lia.
      done. }
    exists bytes. rewrite Hloop. by rewrite to_int_small by lia.
  - intros Hov. rewrite wrap32_overflow by lia.
    destruct (Z.ltb_spec (off + n - 2 ^ 32) off); [|lia].
    by rewrite orb_true_r.
Qed.

End ContentFacts.

(** ** The password lock *)

Lemma land_lor_busy (x : Z) : Z.land (Z.lor x I_BUSY) I_BUSY ≠ 0.
Proof.
  rewrite Z.land_lor_distr_l. intros Hz.
  apply Z.lor_eq_0_iff in Hz as [_ Hz]. done.
Qed.

Lemma land_lor_valid_busy (x : Z) : Z.land (Z.lor x I_VALID) I_BUSY = Z.land x I_BUSY.
Proof. rewrite Z.land_lor_distr_l. change (Z.land I_VALID I_BUSY) with 0. apply Z.lor_0_r. Qed.

Lemma icache_set_icache (v : list inode) (s : state) :
  icache (set_icache v s) = v.
Proof. done. Qed.

(** ** What leaves the exemption table alone

    Of the routines of the layer only unlock_inode writes to the table.
    The device switch is outside the sources at hand; its read handlers
    are taken not to write to it either. *)

Lemma keeps_ret {A} (a : A) : keeps_table (ret a).
Proof. by intros s a' s' [= _ <-]. Qed.

Lemma keeps_panic {A} (msg : string) : keeps_table (@panic A msg).
Proof. by intros s a s'. Qed.

Lemma keeps_stuck {A} (f : fault) : keeps_table (@stuck A f).
Proof. by intros s a s'. Qed.

Lemma keeps_gets {A} (f : state -> A) : keeps_table (gets f).
Proof. by intros s a s' [= _ <-]. Qed.

Lemma keeps_in_bounds {A} (o : option A) : keeps_table (in_bounds o).
Proof. destruct o; [apply keeps_ret|apply keeps_stuck]. Qed.

Lemma keeps_modify (f : state -> state) :
  (forall s, unlocked_inodes (f s) = unlocked_inodes s /\ proc_pid (f s) = proc_pid s) ->
  keeps_table (modify f).
Proof. intros Hf s a s' Hr. inversion Hr; subst. apply Hf. Qed.

Lemma keeps_bind {A B} (m : M A) (k : A -> M B) :
  keeps_table m -> (forall a, keeps_table (k a)) -> keeps_table (bind m k).
Proof.
  intros Hm Hk s b s' Hr.
  apply bind_Ret_inv in Hr as (a & s1 & Hm1 & Hk1).
  destruct (Hm _ _ _ Hm1) as [<- <-]. exact (Hk a _ _ _ Hk1).
Qed.

Lemma keeps_for_each {A} (xs : list A) (body : A -> M unit) :
  (forall x, keeps_table (body x)) -> keeps_table (for_each xs body).
Proof.
  intros Hbody. induction xs as [|x xs IH]; [apply keeps_ret|].
  simpl. apply keeps_bind; [apply Hbody|done].
Qed.

Create HintDb frame.

Ltac frame_step :=
  first
    [ solve [auto with frame]
    | apply keeps_ret | apply keeps_panic | apply keeps_stuck | apply keeps_gets
    | apply keeps_in_bounds
    | apply keeps_modify; done
    | apply keeps_for_each; intros ?
    | apply keeps_bind; [|intros ?]
    | match goal with
      | |- keeps_table (if ?b then _ else _) => destruct b
      | |- keeps_table (match ?x with _ => _ end) => destruct x
      end ].
Ltac frame := repeat frame_step.

Section TableFrame.
Context `{fs_params}.
Variable devsw_read : Z -> option (nat -> Z -> M (Z * list Z)).
Hypothesis devsw_keeps : forall major read ip n,
  devsw_read major = Some read -> keeps_table (read ip n).

Lemma keeps_bread (bno : Z) : keeps_table (bread bno).
Proof. unfold bread. frame. Qed.
Lemma keeps_bread_bitmap (b : Z) : keeps_table (bread_bitmap b).
Proof. unfold bread_bitmap. frame. Qed.
Lemma keeps_update_block (bno : Z) f : keeps_table (update_block bno f).
Proof. unfold update_block. frame. Qed.
Lemma keeps_update_bitmap (b : Z) f : keeps_table (update_bitmap b f).
Proof. unfold update_bitmap. frame. Qed.
Lemma keeps_get_inode (ip : nat) : keeps_table (get_inode ip).
Proof. unfold get_inode. frame. Qed.
Lemma keeps_update_inode (ip : nat) f : keeps_table (update_inode ip f).
Proof. unfold update_inode. frame. Qed.
#[local] Hint Resolve keeps_bread keeps_bread_bitmap keeps_update_block
  keeps_update_bitmap keeps_get_inode keeps_update_inode : frame.

Lemma keeps_balloc_bits (bis : list Z) (b : Z) : keeps_table (balloc_bits bis b).
Proof.
  induction bis as [|bi bis IH]; cbn [balloc_bits]; unfold bzero; frame.
Qed.
#[local] Hint Resolve keeps_balloc_bits : frame.

Lemma keeps_balloc_pages (ks : list Z) : keeps_table (balloc_pages ks).
Proof. induction ks as [|k ks IH]; cbn [balloc_pages]; frame. Qed.
#[local] Hint Resolve keeps_balloc_pages : frame.

Lemma keeps_balloc (dev : Z) : keeps_table (balloc dev).
Proof. unfold balloc. frame. Qed.
Lemma keeps_bfree (dev b : Z) : keeps_table (bfree dev b).
Proof. unfold bfree. frame. Qed.
Lemma keeps_iupdate (ip : nat) : keeps_table (iupdate ip).
Proof. unfold iupdate. frame. Qed.
Lemma keeps_iget (dev inum : Z) : keeps_table (iget dev inum).
Proof. unfold iget. frame. Qed.
Lemma keeps_idup (ip : nat) : keeps_table (idup ip).
Proof. unfold idup. frame. Qed.
Lemma keeps_ilock (ip : nat) : keeps_table (ilock ip).
Proof. unfold ilock. frame. Qed.
Lemma keeps_iunlock (ip : nat) : keeps_table (iunlock ip).
Proof. unfold iunlock. frame. Qed.
#[local] Hint Resolve keeps_balloc keeps_bfree keeps_iupdate keeps_iget
  keeps_idup keeps_ilock keeps_iunlock : frame.

Lemma keeps_bmap (ip : nat) (bn : Z) : keeps_table (bmap ip bn).
Proof. unfold bmap, set_addr. frame. Qed.
Lemma keeps_itrunc (ip : nat) : keeps_table (itrunc ip).
Proof. unfold itrunc, free_entries, set_addr. frame. Qed.
#[local] Hint Resolve keeps_bmap keeps_itrunc : frame.

Lemma keeps_iput (ip : nat) : keeps_table (iput ip).
Proof. unfold iput. frame. Qed.
#[local] Hint Resolve keeps_iput : frame.
Lemma keeps_iunlockput (ip : nat) : keeps_table (iunlockput ip).
Proof. unfold iunlockput. frame. Qed.
#[local] Hint Resolve keeps_iunlockput : frame.

Lemma keeps_readi_loop (fuel : nat) (ip : nat) (n tot off : Z) (dst : list Z) :
  keeps_table (readi_loop fuel ip n tot off dst).
Proof.
  revert tot off dst.
  induction fuel as [|fuel IH]; intros tot off dst; cbn [readi_loop]; frame.
Qed.
#[local] Hint Resolve keeps_readi_loop : frame.

Lemma keeps_readi (ip : nat) (off n : Z) : keeps_table (readi devsw_read ip off n).
Proof.
  unfold readi. apply keeps_bind; [frame|]. intros i.
  destruct (i_type i =? T_DEV); [|frame].
  destruct (_ || _); [frame|].
  destruct (devsw_read (i_major i)) eqn:Hdev; [|frame].
  by eapply devsw_keeps.
Qed.
#[local] Hint Resolve keeps_readi : frame.

Lemma keeps_dirlookup_loop (fuel : nat) (dp : nat) (name : list Z) (off : Z) :
  keeps_table (dirlookup_loop devsw_read fuel dp name off).
Proof.
  revert off. induction fuel as [|fuel IH]; intros off; cbn [dirlookup_loop]; frame.
Qed.
#[local] Hint Resolve keeps_dirlookup_loop : frame.

Lemma keeps_dirlookup (dp : nat) (name : list Z) :
  keeps_table (dirlookup devsw_read dp name).
Proof. unfold dirlookup. frame. Qed.
#[local] Hint Resolve keeps_dirlookup : frame.

Lemma keeps_namex_loop (fuel : nat) (ip : nat) (path : list Z)
    (parent : bool) (name : list Z) :
  keeps_table (namex_loop devsw_read fuel ip path parent name).
Proof.
  revert ip path name.
  induction fuel as [|fuel IH]; intros ip path name; cbn [namex_loop]; frame.
Qed.
#[local] Hint Resolve keeps_namex_loop : frame.

Lemma keeps_namei (path : list Z) : keeps_table (namei devsw_read path).
Proof. unfold namei, namex. frame. Qed.
#[local] Hint Resolve keeps_namei : frame.

Lemma keeps_push_name (name result : list Z) (result_off : Z) :
  keeps_table (push_name name result result_off).
Proof. unfold push_name. frame. Qed.
#[local] Hint Resolve keeps_push_name : frame.

Lemma keeps_walk_inner (origpath_p name result : list Z) (result_off : Z)
    (origpath : list Z) (continue : list Z -> Z -> M walk_result) :
  (forall result result_off, keeps_table (continue result result_off)) ->
  keeps_table (walk_inner devsw_read origpath_p name result result_off origpath
                 continue).
Proof. intros Hcont. unfold walk_inner. frame. Qed.

Lemma keeps_readlinki_walk (fuel : nat) (bufsiz : Z)
    (origpath_p name result : list Z) (result_off : Z) (origpath : list Z) :
  keeps_table (readlinki_walk devsw_read fuel bufsiz origpath_p name result
                 result_off origpath).
Proof.
  revert origpath_p name result result_off origpath.
  induction fuel as [|fuel IH]; intros origpath_p name result result_off origpath;
    cbn [readlinki_walk]; frame.
Qed.
#[local] Hint Resolve keeps_readlinki_walk : frame.

Lemma keeps_restart
    (walk : nat -> list Z -> list Z -> list Z -> Z -> list Z -> M walk_result)
    (loops_left : nat) (name result origpath : list Z) :
  (forall fuel origpath_p name result result_off origpath,
     keeps_table (walk fuel origpath_p name result result_off origpath)) ->
  keeps_table (restart walk loops_left name result origpath).
Proof.
  intros Hwalk. revert name result origpath.
  induction loops_left as [|k IH]; intros name result origpath;
    cbn [restart]; unfold one_pass; frame.
Qed.

Lemma keeps_filereadlinki (name result pathname : list Z) (bufsiz : Z) :
  keeps_table (filereadlinki devsw_read name result pathname bufsiz).
Proof.
  unfold filereadlinki. do 2 (destruct (bool_decide _); [frame|]).
  apply keeps_restart. intros. apply keeps_readlinki_walk.
Qed.
#[local] Hint Resolve keeps_filereadlinki : frame.

Lemma keeps_lock_target (name result pathname : list Z) :
  keeps_table (lock_target devsw_read name result pathname).
Proof. unfold lock_target. frame. Qed.

End TableFrame.

Section LockFacts.
Context `{fs_params}.
Variable devsw_read : Z -> option (nat -> Z -> M (Z * list Z)).

(** An inode that ilock has locked is busy and referenced. *)
Lemma ilock_Ret_inv (s s' : state) (ip : nat) :
  ilock ip s = Ret tt s' ->
  exists i, icache s' !! ip = Some i
            /\ Z.land (i_flags i) I_BUSY ≠ 0 /\ 1 <= i_ref i.
Proof.
  unfold ilock. intros Hl.
  apply bind_Ret_inv in Hl as (i & s1 & Hget & Hl).
  unfold get_inode in Hget.
  apply bind_Ret_inv in Hget as (c & s2 & Hc & Hget).
  injection Hc as <- <-.
  apply in_bounds_Ret_inv in Hget as [Hip ->].
  destruct (Z.ltb_spec (i_ref i) 1); [done|].
  destruct (Z.eqb_spec (Z.land (i_flags i) I_BUSY) 0); [|done]. simpl in Hl.
  unfold bind at 1 in Hl. unfold update_inode, modify in Hl.
  remember (set_icache _ s) as s1 eqn:Hs1 in Hl.
  assert (Hip1 : icache s1 !! ip = Some (set_flags (Z.lor (i_flags i) I_BUSY) i)).
  { rewrite Hs1, icache_set_icache. by rewrite list_lookup_alter_eq, Hip. }
  clear Hs1.
  rewrite (bind_Ret _ _ _ _ _ (get_inode_Ret _ _ _ Hip1)) in Hl.
  destruct (Z.land (i_flags (set_flags _ i)) I_VALID =? 0).
  - unfold bind at 1 in Hl. unfold gets at 1 in Hl.
    unfold bind at 1 in Hl.
    destruct (d_type _ =? 0); [done|].
    injection Hl as <-. rewrite icache_set_icache, list_lookup_alter_eq, Hip1.
    eexists. split; [done|]. simpl. split; [|done].
    rewrite land_lor_valid_busy. apply land_lor_busy.
  - injection Hl as <-. eexists. split; [done|]. simpl. split; [|done].
    apply land_lor_busy.
Qed.

Lemma iunlock_busy (s : state) (ip : nat) (i : inode) :
  icache s !! ip = Some i ->
  Z.land (i_flags i) I_BUSY ≠ 0 -> 1 <= i_ref i ->
  iunlock ip s = Ret tt (released ip s).
Proof.
  intros Hip Hb Hr. unfold iunlock.
  rewrite (bind_Ret _ _ _ _ _ (get_inode_Ret _ _ _ Hip)).
  destruct (Z.eqb_spec (Z.land (i_flags i) I_BUSY) 0); [done|].
  destruct (Z.ltb_spec (i_ref i) 1); [lia|]. done.
Qed.

(** Whoever gets an inode from [lock_target] holds it locked. *)
Lemma lock_target_locked (name result pathname : list Z) (s s1 : state)
    (ip : nat) :
  lock_target devsw_read name result pathname s = Ret (Some ip) s1 ->
  exists i, icache s1 !! ip = Some i
            /\ Z.land (i_flags i) I_BUSY ≠ 0 /\ 1 <= i_ref i.
Proof.
  unfold lock_target. intros Ht.
  apply bind_Ret_inv in Ht as (r & s2 & _ & Ht).
  destruct (fst r <? 0); [done|].
  apply bind_Ret_inv in Ht as (fp & s3 & _ & Ht).
  apply bind_Ret_inv in Ht as ([ip'|] & s4 & _ & Ht); [|done].
  apply bind_Ret_inv in Ht as ([] & s5 & Hl & Ht).
  injection Ht as -> ->. by eapply ilock_Ret_inv.
Qed.

Lemma filefunprot_unfold (name result pathname password : list Z) (s : state) :
  filefunprot devsw_read name result pathname password s =
  (t <- lock_target devsw_read name result pathname ;;
   match t with
   | None => ret (-1)
   | Some ip =>
     i <- get_inode ip ;;
     if zget (i_password i) 0 =? 0 then iunlock ip ;;; ret 0
     else if negb (strncmp (i_password i) password PASSLEN =? 0) then
       iunlock ip ;;; ret (-1)
     else
       update_inode ip (set_din (fun d =>
         set_password (zset (d_password d) 0 0) d)) ;;;
       iunlock ip ;;; ret 0
   end) s.
Proof.
  unfold filefunprot, lock_target, bind.
  destruct (filereadlinki _ _ _ _ _ s) as [[r out] s0| |]; [|done..]. simpl.
  destruct (r <? 0); [done|].
  destruct (in_bounds out s0) as [fp s2| |]; [|done..].
  destruct (namei _ fp s2) as [[ip|] s3| |]; [|done..].
  by destruct (ilock ip s3) as [[] s4| |].
Qed.

Lemma zget_zset_head (l : list Z) : zget (zset l 0 0) 0 = 0.
Proof. by destruct l. Qed.

(** C5.  funprot, once the path has led to a locked inode: a stored
    password that the supplied one matches is cleared and 0 is returned;
    one that it does not match makes the call return -1, and an inode
    without a password makes it return 0, each time with the lock given
    back and the fields of the inode as they were.  The reference that
    namei took is not given back: the count at the return is the count
    after namei, the routine having no iput. *)
Theorem filefunprot_cases (name result pathname password : list Z)
    (s s1 : state) (ip : nat) (i : inode) :
  lock_target devsw_read name result pathname s = Ret (Some ip) s1 ->
  icache s1 !! ip = Some i ->
  (zget (i_password i) 0 ≠ 0 ->
   strncmp (i_password i) password PASSLEN = 0 ->
   exists s', filefunprot devsw_read name result pathname password s = Ret 0 s'
     /\ s' = released ip
               (set_icache (alter (set_din (fun d =>
                  set_password (zset (d_password d) 0 0) d)) ip (icache s1)) s1)
     /\ exists i', icache s' !! ip = Some i' /\ zget (i_password i') 0 = 0)
  /\ (zget (i_password i) 0 ≠ 0 ->
      strncmp (i_password i) password PASSLEN ≠ 0 ->
      exists s', filefunprot devsw_read name result pathname password s = Ret (-1) s'
        /\ s' = released ip s1
        /\ exists i', icache s' !! ip = Some i' /\ i_din i' = i_din i
                      /\ i_ref i' = i_ref i)
  /\ (zget (i_password i) 0 = 0 ->
      exists s', filefunprot devsw_read name result pathname password s = Ret 0 s'
        /\ s' = released ip s1
        /\ exists i', icache s' !! ip = Some i' /\ i_din i' = i_din i
                      /\ i_ref i' = i_ref i).
Proof.
  intros Ht Hip.
  destruct (lock_target_locked _ _ _ _ _ _ Ht) as (i0 & Hip0 & Hbusy & Href).
  rewrite Hip in Hip0. injection Hip0 as <-.
  assert (Hrel : exists i', icache (released ip s1) !! ip = Some i'
                   /\ i_din i' = i_din i /\ i_ref i' = i_ref i).
  { unfold released. rewrite icache_set_icache, list_lookup_alter_eq, Hip.
    by eexists. }
  repeat split.
  - intros Hpw Hmatch. eexists. split; [|split; [reflexivity|]].
    + rewrite filefunprot_unfold, (bind_Ret _ _ _ _ _ Ht).
      rewrite (bind_Ret _ _ _ _ _ (get_inode_Ret _ _ _ Hip)).
      destruct (Z.eqb_spec (zget (i_password i) 0) 0); [done|].
      rewrite Hmatch. simpl.
      unfold bind at 1. unfold update_inode at 1, modify at 1.
      erewrite bind_Ret; [done|].
      eapply iunlock_busy;
        [by rewrite icache_set_icache, list_lookup_alter_eq, Hip|done|done].
    + unfold released.
      rewrite !icache_set_icache, !list_lookup_alter_eq, Hip. simpl.
      eexists. split; [done|]. apply zget_zset_head.
  - intros Hpw Hmis. eexists. split; [|split; [reflexivity|done]].
    rewrite filefunprot_unfold, (bind_Ret _ _ _ _ _ Ht).
    rewrite (bind_Ret _ _ _ _ _ (get_inode_Ret _ _ _ Hip)).
    destruct (Z.eqb_spec (zget (i_password i) 0) 0); [done|].
    destruct (Z.eqb_spec (strncmp (i_password i) password PASSLEN) 0); [done|].
    simpl. by rewrite (bind_Ret _ _ _ _ _ (iunlock_busy _ _ _ Hip Hbusy Href)).
  - intros Hpw. eexists. split; [|split; [reflexivity|done]].
    rewrite filefunprot_unfold, (bind_Ret _ _ _ _ _ Ht).
    rewrite (bind_Ret _ _ _ _ _ (get_inode_Ret _ _ _ Hip)).
    rewrite Hpw. simpl.
    by rewrite (bind_Ret _ _ _ _ _ (iunlock_busy _ _ _ Hip Hbusy Href)).
Qed.

(** *** The exemption table *)

Lemma find_slot_Some (t : gmap (Z * Z) Z) (inum : Z) (js : list Z) (v k : Z) :
  find_slot t inum js v = Some k -> k ∈ js /\ pids t inum k = v.
Proof.
  induction js as [|j js IH]; simpl; [done|].
  destruct (Z.eqb_spec (pids t inum j) v) as [Heq|_].
  - intros [= <-]. split; [left|done].
  - intros Hf. destruct (IH Hf). split; [by right|done].
Qed.

Lemma find_slot_insert (t : gmap (Z * Z) Z) (inum : Z) (js : list Z) (pid k : Z) :
  k ∈ js -> is_Some (find_slot (<[(inum, k) := pid]> t) inum js pid).
Proof.
  induction js as [|j js IH]; intros Hk; [by apply elem_of_nil in Hk|].
  simpl. destruct (Z.eqb_spec (pids (<[(inum, k) := pid]> t) inum j) pid) as [|Hne].
  - by eexists.
  - apply elem_of_cons in Hk as [->|Hk]; [|by apply IH].
    unfold pids in Hne. by rewrite lookup_insert_eq in Hne.
Qed.

Lemma find_slot_None (t : gmap (Z * Z) Z) (inum : Z) (js : list Z) (v : Z) :
  find_slot t inum js v = None <-> forall j, j ∈ js -> pids t inum j ≠ v.
Proof.
  induction js as [|j js IH]; simpl.
  - split; [|done]. intros _ j Hj. by apply elem_of_nil in Hj.
  - destruct (Z.eqb_spec (pids t inum j) v) as [Heq|Hne].
    + split; [done|]. intros Hall. destruct (Hall j); [left|done].
    + rewrite IH. split.
      * intros Hall j' Hj'. apply elem_of_cons in Hj' as [->|Hj']; [done|by apply Hall].
      * intros Hall j' Hj'. apply Hall. by right.
Qed.

(** The scan stops at the first slot that holds [v]. *)
Lemma find_slot_first (t : gmap (Z * Z) Z) (inum : Z) (pre post : list Z)
    (v k : Z) :
  (forall j, j ∈ pre -> pids t inum j ≠ v) -> pids t inum k = v ->
  find_slot t inum (pre ++ k :: post) v = Some k.
Proof.
  intros Hpre Hk. induction pre as [|j pre IH]; simpl.
  - by rewrite Hk, Z.eqb_refl.
  - destruct (Z.eqb_spec (pids t inum j) v) as [Heq|_].
    + destruct (Hpre j); [left|done].
    + apply IH. intros j' Hj'. apply Hpre. by right.
Qed.

Lemma find_slot_least (t : gmap (Z * Z) Z) (inum n v k : Z) :
  0 <= k < n -> pids t inum k = v ->
  (forall j, 0 <= j < k -> pids t inum j ≠ v) ->
  find_slot t inum (seqZ 0 n) v = Some k.
Proof.
  intros Hk Hv Hleast.
  replace n with (k + (n - k)) by lia.
  rewrite seqZ_app by lia. rewrite (seqZ_cons (0 + k)) by lia.
  rewrite Z.add_0_l. apply find_slot_first; [|done].
  intros j Hj. apply elem_of_seqZ in Hj. apply Hleast. lia.
Qed.

Lemma unlock_inode_cases (s : state) (ip : nat) (i : inode) :
  icache s !! ip = Some i ->
  0 <= i_inum i < NINODES ->
  let t := unlocked_inodes s in
  let row v := find_slot t (i_inum i) (seqZ 0 NPROC) v in
  (is_Some (row (proc_pid s)) -> unlock_inode ip s = Ret tt s)
  /\ (row (proc_pid s) = None -> forall k, row 0 = Some k ->
      unlock_inode ip s
      = Ret tt (set_unlocked (<[(i_inum i, k) := proc_pid s]> t) s))
  /\ (row (proc_pid s) = None -> row 0 = None ->
      unlock_inode ip s = Panic "unlock_inodes: No free pid slots found").
Proof.
  intros Hip Hnum t row.
  assert (Hstart : unlock_inode ip s =
    match row (proc_pid s) with
    | Some _ => Ret tt s
    | None => match row 0 with
              | Some k => Ret tt (set_unlocked (<[(i_inum i, k) := proc_pid s]> t) s)
              | None => Panic "unlock_inodes: No free pid slots found"
              end
    end).
  { unfold unlock_inode.
    rewrite (bind_Ret _ _ _ _ _ (get_inode_Ret _ _ _ Hip)).
    unfold bind, gets.
    destruct (Z.leb_spec 0 (i_inum i)); [|lia].
    destruct (Z.ltb_spec (i_inum i) NINODES); [|lia]. simpl.
    subst row t. cbv beta. destruct (find_slot _ _ _ (proc_pid s)); [done|].
    by destruct (find_slot _ _ _ 0). }
  rewrite Hstart. repeat split.
  - by intros [k ->].
  - by intros -> k ->.
  - by intros -> ->.
Qed.

Lemma filefunlock_unfold (name result pathname password : list Z) (s : state) :
  filefunlock devsw_read name result pathname password s =
  (t <- lock_target devsw_read name result pathname ;;
   match t with
   | None => ret (-1)
   | Some ip =>
     i <- get_inode ip ;;
     if zget (i_password i) 0 =? 0 then iunlock ip ;;; ret (-1)
     else if negb (strncmp (i_password i) password PASSLEN =? 0) then
       iunlock ip ;;; ret (-1)
     else unlock_inode ip ;;; iunlock ip ;;; ret 0
   end) s.
Proof.
  unfold filefunlock, lock_target, bind.
  destruct (filereadlinki _ _ _ _ _ s) as [[r out] s0| |]; [|done..]. simpl.
  destruct (r <? 0); [done|].
  destruct (in_bounds out s0) as [fp s2| |]; [|done..].
  destruct (namei _ fp s2) as [[ip|] s3| |]; [|done..].
  by destruct (ilock ip s3) as [[] s4| |].
Qed.

(** The read handlers of the device switch do not write to the table. *)
Hypothesis devsw_keeps : forall major read ip n,
  devsw_read major = Some read -> keeps_table (read ip n).

(** C6.  funlock returns 0 only if the supplied password matches the one
    stored in the inode, and whenever it returns 0 some slot of the row of
    the inode holds the pid of the caller.  Once the path has led to a
    locked inode: a password that does not match, and an inode without a
    password, make it return -1 with the table as it was at the call; a
    match for a process that some slot of the row holds already returns 0
    with the table as it was at the call; a match for a process that no
    slot of the row holds writes its pid to the first slot of the row that
    is zero and changes no other slot; and when no slot holds the pid and
    none is zero the routine halts in panic instead of returning. *)
Theorem filefunlock_cases (name result pathname password : list Z) (s : state) :
  let t := unlocked_inodes s in
  let pid := proc_pid s in
  (forall s', filefunlock devsw_read name result pathname password s = Ret 0 s' ->
     exists ip s1 i,
       lock_target devsw_read name result pathname s = Ret (Some ip) s1
       /\ icache s1 !! ip = Some i
       /\ zget (i_password i) 0 ≠ 0
       /\ strncmp (i_password i) password PASSLEN = 0
       /\ exists j, 0 <= j < NPROC
            /\ pids (unlocked_inodes s') (i_inum i) j = pid)
  /\ (forall s1 ip i,
       lock_target devsw_read name result pathname s = Ret (Some ip) s1 ->
       icache s1 !! ip = Some i ->
       0 <= i_inum i < NINODES ->
       let inum := i_inum i in
       (zget (i_password i) 0 = 0 \/ strncmp (i_password i) password PASSLEN ≠ 0 ->
        filefunlock devsw_read name result pathname password s
        = Ret (-1) (released ip s1)
        /\ unlocked_inodes (released ip s1) = t)
       /\ (zget (i_password i) 0 ≠ 0 ->
           strncmp (i_password i) password PASSLEN = 0 ->
           ((exists j, 0 <= j < NPROC /\ pids t inum j = pid) ->
            filefunlock devsw_read name result pathname password s
            = Ret 0 (released ip s1)
            /\ unlocked_inodes (released ip s1) = t)
           /\ ((forall j, 0 <= j < NPROC -> pids t inum j ≠ pid) ->
               forall k, 0 <= k < NPROC -> pids t inum k = 0 ->
               (forall j, 0 <= j < k -> pids t inum j ≠ 0) ->
               let s2 := released ip (set_unlocked (<[(inum, k) := pid]> t) s1) in
               filefunlock devsw_read name result pathname password s = Ret 0 s2
               /\ unlocked_inodes s2 = <[(inum, k) := pid]> t)
           /\ ((forall j, 0 <= j < NPROC ->
                  pids t inum j ≠ pid /\ pids t inum j ≠ 0) ->
               filefunlock devsw_read name result pathname password s
               = Panic "unlock_inodes: No free pid slots found"))).
Proof.
  intros t pid. split.
  - intros s' Hr. rewrite filefunlock_unfold in Hr.
    apply bind_Ret_inv in Hr as ([ip|] & s1 & Ht & Hr); [|done].
    destruct (keeps_lock_target devsw_read devsw_keeps _ _ _ _ _ _ Ht)
      as [Htab Hpid].
    apply bind_Ret_inv in Hr as (i & s2 & Hget & Hr).
    unfold get_inode in Hget.
    apply bind_Ret_inv in Hget as (c & s3 & Hc & Hget).
    injection Hc as <- <-.
    apply in_bounds_Ret_inv in Hget as [Hip ->].
    exists ip, s1, i. split; [done|]. split; [done|].
    destruct (Z.eqb_spec (zget (i_password i) 0) 0) as [|Hpw].
    { apply bind_Ret_inv in Hr as (? & ? & _ & Hr). done. }
    destruct (Z.eqb_spec (strncmp (i_password i) password PASSLEN) 0) as [Hm|];
      [|simpl in Hr; apply bind_Ret_inv in Hr as (? & ? & _ & Hr); done].
    split; [done|]. split; [done|]. simpl in Hr.
    apply bind_Ret_inv in Hr as ([] & s4 & Hun & Hr).
    apply bind_Ret_inv in Hr as ([] & s5 & Hrel & Hr).
    injection Hr as <-.
    assert (Htab5 : unlocked_inodes s5 = unlocked_inodes s4).
    { by destruct (keeps_iunlock ip _ _ _ Hrel). }
    rewrite Htab5. clear Hrel Htab5 s5.
    unfold unlock_inode in Hun.
    rewrite (bind_Ret _ _ _ _ _ (get_inode_Ret _ _ _ Hip)) in Hun.
    unfold bind, gets in Hun.
    destruct (negb _); [done|]. fold pid in Hpid. rewrite Hpid in Hun.
    destruct (find_slot _ _ _ pid) as [j|] eqn:Hpresent.
    + injection Hun as <-. apply find_slot_Some in Hpresent as [Hj Hv].
      apply elem_of_seqZ in Hj. exists j. split; [lia|done].
    + destruct (find_slot _ _ _ 0) as [k|] eqn:Hfree; [|done].
      injection Hun as <-. apply find_slot_Some in Hfree as [Hk _].
      apply elem_of_seqZ in Hk. exists k. split; [lia|].
      unfold pids. simpl. by rewrite lookup_insert_eq.
  - intros s1 ip i Ht Hip Hnum inum.
    destruct (keeps_lock_target devsw_read devsw_keeps _ _ _ _ _ _ Ht)
      as [Htab Hpid].
    fold t in Htab. fold pid in Hpid.
    destruct (lock_target_locked _ _ _ _ _ _ Ht) as (i0 & Hip0 & Hbusy & Href).
    rewrite Hip in Hip0. injection Hip0 as <-.
    destruct (unlock_inode_cases s1 ip i Hip Hnum) as (Hin & Hfree & Hfull).
    rewrite Htab, Hpid in Hin, Hfree, Hfull. fold inum in Hin, Hfree, Hfull.
    assert (Hstart : forall k : inode -> M Z,
              bind (get_inode ip) k s1 = k i s1).
    { intros k. apply bind_Ret, get_inode_Ret, Hip. }
    split; [|intros Hpw Hmatch; split; [|split]].
    + intros Hmis. split; [|done].
      rewrite filefunlock_unfold, (bind_Ret _ _ _ _ _ Ht), Hstart.
      destruct (Z.eqb_spec (zget (i_password i) 0) 0) as [|Hpw].
      { by rewrite (bind_Ret _ _ _ _ _ (iunlock_busy _ _ _ Hip Hbusy Href)). }
      destruct Hmis as [|Hmis]; [done|].
      destruct (Z.eqb_spec (strncmp (i_password i) password PASSLEN) 0); [done|].
      simpl.
      by rewrite (bind_Ret _ _ _ _ _ (iunlock_busy _ _ _ Hip Hbusy Href)).
    + intros (j & Hj & Hv). split; [|done].
      rewrite filefunlock_unfold, (bind_Ret _ _ _ _ _ Ht), Hstart.
      destruct (Z.eqb_spec (zget (i_password i) 0) 0); [done|].
      rewrite Hmatch. simpl.
      assert (Hrow : is_Some (find_slot t inum (seqZ 0 NPROC) pid)).
      { destruct (find_slot t inum (seqZ 0 NPROC) pid) eqn:Hf; [done|].
        rewrite find_slot_None in Hf. destruct (Hf j); [|done].
        apply elem_of_seqZ. lia. }
      rewrite (bind_Ret _ _ _ _ _ (Hin Hrow)).
      by rewrite (bind_Ret _ _ _ _ _ (iunlock_busy _ _ _ Hip Hbusy Href)).
    + intros Habsent k Hk Hzero Hleast s2. split; [|done].
      rewrite filefunlock_unfold, (bind_Ret _ _ _ _ _ Ht), Hstart.
      destruct (Z.eqb_spec (zget (i_password i) 0) 0); [done|].
      rewrite Hmatch. simpl.
      assert (Hrow : find_slot t inum (seqZ 0 NPROC) pid = None).
      { apply find_slot_None. intros j Hj. apply elem_of_seqZ in Hj.
        apply Habsent. lia. }
      rewrite (bind_Ret _ _ _ _ _
                 (Hfree Hrow k (find_slot_least _ _ _ _ _ Hk Hzero Hleast))).
      erewrite bind_Ret; [done|].
      by eapply iunlock_busy.
    + intros Hfilled.
      rewrite filefunlock_unfold, (bind_Ret _ _ _ _ _ Ht), Hstart.
      destruct (Z.eqb_spec (zget (i_password i) 0) 0); [done|].
      rewrite Hmatch. simpl.
      assert (Hrow : forall v, (v = pid \/ v = 0) ->
                find_slot t inum (seqZ 0 NPROC) v = None).
      { intros v Hv. apply find_slot_None. intros j Hj.
        apply elem_of_seqZ in Hj.
        destruct (Hfilled j ltac:(lia)) as [? ?]. by destruct Hv as [->| ->]. }
      by rewrite (bind_Panic _ _ _ _
                    (Hfull (Hrow pid ltac:(by left)) (Hrow 0 ltac:(by right)))).
Qed.

End LockFacts.

(** ** Arrays of bytes and of words *)

Lemma zget_zset_eq (l : list Z) (i v : Z) :
  0 <= i < Z.of_nat (length l) -> zget (zset l i v) i = v.
Proof.
  intros Hi. unfold zget, zset.
  apply nth_lookup_Some with (d := 0).
  apply list_lookup_insert_eq. lia.
Qed.

Lemma zget_zset_ne (l : list Z) (i j v : Z) :
  0 <= i -> 0 <= j -> i ≠ j -> zget (zset l i v) j = zget l j.
Proof.
  intros Hi Hj Hne. unfold zget, zset.
  rewrite !nth_lookup. by rewrite list_lookup_insert_ne by lia.
Qed.

Lemma length_zset (l : list Z) (i v : Z) : length (zset l i v) = length l.
Proof. apply length_insert. Qed.

Lemma length_set_uint (blk : list Z) (i v : Z) :
  length (set_uint blk i v) = length blk.
Proof. unfold set_uint. by rewrite !length_zset. Qed.

Lemma get_uint_set_uint_eq (blk : list Z) (i v : Z) :
  0 <= i -> 4 * i + 4 <= Z.of_nat (length blk) -> 0 <= v < 2 ^ 32 ->
  get_uint (set_uint blk i v) i = v.
Proof.
  intros Hi Hlen Hv. unfold get_uint, set_uint.
  rewrite (zget_zset_eq _ (4 * i + 3)) by (rewrite !length_zset; lia).
  rewrite (zget_zset_ne _ (4 * i + 3) (4 * i + 2)) by lia.
  rewrite (zget_zset_eq _ (4 * i + 2)) by (rewrite !length_zset; lia).
  rewrite (zget_zset_ne _ (4 * i + 3) (4 * i + 1)) by lia.
  rewrite (zget_zset_ne _ (4 * i + 2) (4 * i + 1)) by lia.
  rewrite (zget_zset_eq _ (4 * i + 1)) by (rewrite !length_zset; lia).
  rewrite (zget_zset_ne _ (4 * i + 3) (4 * i)) by lia.
  rewrite (zget_zset_ne _ (4 * i + 2) (4 * i)) by lia.
  rewrite (zget_zset_ne _ (4 * i + 1) (4 * i)) by lia.
  rewrite (zget_zset_eq _ (4 * i)) by lia.
  change (2 ^ 32) with 4294967296 in Hv.
  Z.div_mod_to_equations. lia.
Qed.

Lemma get_uint_set_uint_ne (blk : list Z) (i j v : Z) :
  0 <= i -> 0 <= j -> i ≠ j ->
  get_uint (set_uint blk i v) j = get_uint blk j.
Proof.
  intros Hi Hj Hne. unfold get_uint, set_uint.
  by rewrite !zget_zset_ne by lia.
Qed.

(** ** Bits of the free bitmap *)

Lemma land_bit (v k : Z) :
  0 <= k -> (Z.land v (Z.shiftl 1 k) =? 0) = negb (Z.testbit v k).
Proof.
  intros Hk. rewrite Z.shiftl_1_l.
  destruct (Z.testbit v k) eqn:Hb; simpl.
  - apply Z.eqb_neq. intros Hz.
    apply (f_equal (fun x => Z.testbit x k)) in Hz.
    rewrite Z.land_spec, Hb, Z.pow2_bits_true, Z.bits_0 in Hz by done. done.
  - apply Z.eqb_eq. apply Z.bits_inj'. intros j Hj.
    rewrite Z.land_spec, Z.bits_0, Z.pow2_bits_eqb by done.
    destruct (Z.eqb_spec k j) as [->|]; [by rewrite Hb|apply andb_false_r].
Qed.

Lemma testbit_mark (v k j : Z) :
  0 <= k < 8 -> 0 <= j < 8 ->
  Z.testbit (Z.lor v (Z.shiftl 1 k) mod 256) j = Z.testbit v j || (k =? j).
Proof.
  intros Hk Hj. change 256 with (2 ^ 8).
  rewrite Z.mod_pow2_bits_low by lia.
  by rewrite Z.lor_spec, Z.shiftl_1_l, Z.pow2_bits_eqb by lia.
Qed.

Section AllocFacts.
Context `{fs_params}.
Hypothesis BSIZE_pos : 0 < BSIZE.

Lemma BPB_pos : 0 < BPB.
Proof. unfold BPB. lia. Qed.

Lemma in_use_testbit (s : state) (x : Z) :
  in_use s x
  = Z.testbit (zget (default zero_block (bitmap s !! (x / BPB))) (x mod BPB / 8))
              (x mod BPB mod 8).
Proof.
  unfold in_use. rewrite land_bit, negb_involutive; [done|].
  apply Z.mod_pos_bound. lia.
Qed.

Lemma length_zero_block : length zero_block = Z.to_nat BSIZE.
Proof. apply length_replicate. Qed.

Lemma page_length (s : state) (k : Z) :
  disk_sized s -> length (default zero_block (bitmap s !! k)) = Z.to_nat BSIZE.
Proof.
  intros (_ & Hpg & _). destruct (bitmap s !! k) as [pg|] eqn:Hk; simpl.
  - by apply (Hpg k).
  - apply length_zero_block.
Qed.

Lemma block_length (s : state) (b : Z) :
  disk_sized s -> length (block_of s b) = Z.to_nat BSIZE.
Proof.
  intros (_ & _ & Hblk). unfold block_of.
  destruct (blocks s !! b) as [blk|] eqn:Hb; simpl.
  - by apply (Hblk b).
  - apply length_zero_block.
Qed.

Lemma bit_position (x : Z) :
  0 <= x mod BPB / 8 < BSIZE /\ 0 <= x mod BPB mod 8 < 8.
Proof.
  pose proof BPB_pos.
  assert (0 <= x mod BPB < BPB) as Hm by (apply Z.mod_pos_bound; lia).
  unfold BPB in *. split; [|apply Z.mod_pos_bound; lia].
  split; [apply Z.div_pos; lia|]. apply Z.div_lt_upper_bound; lia.
Qed.

Lemma allocated_in_use (s : state) (x : Z) :
  disk_sized s -> in_use (allocated s x) x = true.
Proof.
  intros Hok. rewrite in_use_testbit. unfold allocated. simpl.
  rewrite lookup_insert_eq. simpl.
  destruct (bit_position x) as [Hby Hbi].
  rewrite zget_zset_eq by (rewrite page_length by done; lia).
  rewrite testbit_mark by lia. by rewrite Z.eqb_refl, orb_true_r.
Qed.

Lemma allocated_keeps_in_use (s : state) (x y : Z) :
  in_use s y = true -> in_use (allocated s x) y = true.
Proof.
  rewrite !in_use_testbit. unfold allocated. simpl. intros Hy.
  destruct (decide (x / BPB = y / BPB)) as [Hpg|Hpg];
    [|by rewrite lookup_insert_ne].
  rewrite Hpg, lookup_insert_eq. simpl.
  destruct (bit_position x) as [Hbx Hix].
  destruct (bit_position y) as [Hby Hiy].
  destruct (decide (x mod BPB / 8 = y mod BPB / 8)) as [Hb|Hb];
    [|by rewrite zget_zset_ne by lia].
  rewrite Hb.
  set (pg := default zero_block (bitmap s !! (y / BPB))) in *.
  destruct (decide (y mod BPB / 8 < Z.of_nat (length pg))) as [Hin|Hout].
  - rewrite zget_zset_eq by lia. rewrite testbit_mark by lia.
    by rewrite Hy.
  - unfold zset. by rewrite list_insert_ge by lia.
Qed.

Lemma allocated_sized (s : state) (x : Z) :
  disk_sized s -> disk_sized (allocated s x).
Proof.
  intros Hok. pose proof Hok as (Hsz & Hpg & Hblk).
  unfold allocated. split; [done|]. split; simpl.
  - apply map_Forall_insert_2; [|done].
    rewrite length_zset. by apply page_length.
  - apply map_Forall_insert_2; [|done]. apply length_zero_block.
Qed.

(** The inner loop of balloc either finds no free bit and changes
    nothing, or hands out a block whose bit was clear. *)
Lemma balloc_bits_spec (k : Z) (bis : list Z) (s s' : state) (r : option Z) :
  0 <= k ->
  Forall (fun bi => 0 <= bi < BPB) bis ->
  balloc_bits bis (k * BPB) s = Ret r s' ->
  match r with
  | None => s' = s
  | Some x => 0 <= x < sb_size s /\ in_use s x = false /\ s' = allocated s x
  end.
Proof.
  intros Hk Hbis. pose proof BPB_pos as HB.
  induction Hbis as [|bi bis Hbi _ IH]; simpl.
  { by intros [= <- <-]. }
  unfold bind at 1. unfold gets at 1.
  destruct (Z.ltb_spec (k * BPB + bi) (sb_size s)); [|by intros [= <- <-]].
  unfold bind at 1. unfold bread_bitmap at 1. unfold gets at 1.
  assert (Hdiv : (k * BPB + bi) / BPB = k).
  { rewrite Z.add_comm, Z.div_add by lia. rewrite Z.div_small by lia. lia. }
  assert (Hmod : (k * BPB + bi) mod BPB = bi).
  { rewrite Z.add_comm, Z.mod_add by lia. apply Z.mod_small. lia. }
  assert (Hpage : k * BPB / BPB = k) by (apply Z.div_mul; lia).
  rewrite Hpage.
  destruct (Z.land _ _ =? 0) eqn:Hbit; [|apply IH].
  intros Hr.
  unfold bind, update_bitmap, bzero, update_block, modify, ret in Hr.
  injection Hr as <- <-.
  split; [nia|]. split.
  - unfold in_use. by rewrite Hdiv, Hmod, Hbit.
  - unfold allocated. simpl. by rewrite Hdiv, Hmod, Hpage.
Qed.

Lemma balloc_pages_spec (ks : list Z) (s s' : state) (x : Z) :
  Forall (fun k => 0 <= k) ks ->
  balloc_pages ks s = Ret x s' ->
  0 <= x < sb_size s /\ in_use s x = false /\ s' = allocated s x.
Proof.
  intros Hks. induction Hks as [|k ks Hk _ IH]; simpl; [done|].
  unfold bind at 1. unfold gets at 1.
  destruct (k * BPB <? sb_size s); [|done].
  intros Hr. apply bind_Ret_inv in Hr as (r & s1 & Hbits & Hr).
  apply balloc_bits_spec in Hbits; [|done|].
  - destruct r as [bno|].
    + by injection Hr as <- <-.
    + subst s1. by apply IH.
  - apply Forall_forall. intros bi Hbi.
    apply elem_of_seqZ in Hbi. lia.
Qed.

(** balloc returns a block whose bit was clear, sets the bit and zeroes
    the block. *)
Lemma balloc_spec (dev : Z) (s s' : state) (x : Z) :
  balloc dev s = Ret x s' ->
  0 <= x < sb_size s /\ in_use s x = false /\ s' = allocated s x.
Proof.
  unfold balloc. unfold bind at 1. unfold gets at 1.
  apply balloc_pages_spec.
  apply Forall_forall. intros k Hk. apply elem_of_seqZ in Hk. lia.
Qed.

Lemma block_of_allocated (s : state) (x b : Z) :
  block_of (allocated s x) b = if decide (x = b) then zero_block else block_of s b.
Proof.
  unfold block_of, allocated. simpl.
  destruct (decide (x = b)) as [->|Hne].
  - by rewrite lookup_insert_eq.
  - by rewrite lookup_insert_ne.
Qed.

(** What one allocation does to a disk on which block 0 is in use. *)
Lemma alloc_step (dev : Z) (s s1 : state) (x : Z) :
  disk_sized s -> in_use s 0 = true ->
  balloc dev s = Ret x s1 ->
  x ≠ 0 /\ 0 <= x < 2 ^ 32 /\ s1 = allocated s x
  /\ disk_sized s1 /\ in_use s1 x = true
  /\ (forall y, in_use s y = true -> in_use s1 y = true /\ y ≠ x).
Proof.
  intros Hok H0 Hb. apply balloc_spec in Hb as (Hx & Hfree & ->).
  pose proof Hok as (Hsz & _).
  split; [intros ->; congruence|]. split; [lia|]. split; [done|].
  split; [by apply allocated_sized|]. split; [by apply allocated_in_use|].
  intros y Hy. split; [by apply allocated_keeps_in_use|].
  intros ->. congruence.
Qed.

(** Reading entry [idx] of index block [blkno], allocating a block for it
    when it is zero: the entry then holds the block returned, and no entry
    that was set in a block in use has changed. *)
Lemma index_entry_stage (dev blkno idx : Z) (s s' : state) (a : Z) :
  disk_sized s -> in_use s 0 = true ->
  0 <= idx < NINDIRECT -> 4 * NINDIRECT <= BSIZE ->
  (let e := get_uint (block_of s blkno) idx in
   if e =? 0 then
     x <- balloc dev ;;
     update_block blkno (fun a => set_uint a idx x) ;;;
     ret x
   else ret e) s = Ret a s' ->
  a ≠ 0 /\ get_uint (block_of s' blkno) idx = a
  /\ disk_sized s' /\ in_use s' 0 = true /\ icache s' = icache s
  /\ (forall y, in_use s y = true -> in_use s' y = true)
  /\ (forall b j, in_use s b = true -> 0 <= j ->
        get_uint (block_of s b) j ≠ 0 ->
        get_uint (block_of s' b) j = get_uint (block_of s b) j).
Proof.
  intros Hok H0 Hidx Hfit. cbv zeta.
  destruct (Z.eqb_spec (get_uint (block_of s blkno) idx) 0) as [He|He].
  - intros Hr. apply bind_Ret_inv in Hr as (x & s1 & Hb & Hr).
    apply alloc_step in Hb as (Hx0 & Hx & -> & Hok1 & Hux & Hkeep); [|done..].
    unfold bind, update_block, modify, ret in Hr. injection Hr as <- <-.
    set (s1 := allocated s x) in *.
    set (s2 := set_blocks _ s1).
    assert (Hblk : forall b, block_of s2 b
              = if decide (blkno = b) then set_uint (block_of s1 blkno) idx x
                else block_of s1 b).
    { intros b. unfold block_of, s2. simpl.
      destruct (decide (blkno = b)) as [->|Hne].
      - by rewrite lookup_insert_eq.
      - by rewrite lookup_insert_ne. }
    split; [done|]. split.
    { rewrite Hblk, decide_True by done.
      apply get_uint_set_uint_eq; [lia| |done].
      rewrite block_length by done. lia. }
    split.
    { destruct Hok1 as (? & ? & Hb1). split; [done|]. split; [done|].
      simpl. apply map_Forall_insert_2; [|done].
      rewrite length_set_uint.
      apply (block_length s1 blkno). by split. }
    split; [by apply Hkeep|]. split; [done|].
    split; [intros y Hy; by apply Hkeep|].
    intros b j Hb Hj Hnz.
    destruct (Hkeep b Hb) as [_ Hbx].
    assert (Hb1 : block_of s1 b = block_of s b).
    { unfold s1. rewrite block_of_allocated. by rewrite decide_False. }
    rewrite Hblk. destruct (decide (blkno = b)) as [->|Hne]; [|by rewrite Hb1].
    rewrite Hb1. apply get_uint_set_uint_ne; [lia|done|].
    intros ->. done.
  - intros [= <- <-]. done.
Qed.

Lemma nonzero_ne (a : Z) : a ≠ 0 -> nonzero a = Some a.
Proof. intros Ha. unfold nonzero. by destruct (Z.eqb_spec a 0). Qed.

(** Reading a block pointer [v] held in inode [ip], allocating a block
    and storing it with [upd] when the pointer is zero. *)
Lemma pointer_stage (dev v : Z) (upd : Z -> inode -> inode)
    (s s1 : state) (ip : nat) (i : inode) (a : Z) :
  disk_sized s -> in_use s 0 = true ->
  icache s !! ip = Some i ->
  (if v =? 0 then
     x <- balloc dev ;; update_inode ip (upd x) ;;; ret x
   else ret v) s = Ret a s1 ->
  a ≠ 0 /\ disk_sized s1 /\ in_use s1 0 = true
  /\ icache s1 !! ip = Some (if v =? 0 then upd a i else i)
  /\ (v = 0 \/ a = v)
  /\ (v = 0 \/ in_use s v = true -> in_use s1 a = true).
Proof.
  intros Hok H0 Hip.
  destruct (Z.eqb_spec v 0) as [Hv|Hv].
  - intros Hr. apply bind_Ret_inv in Hr as (x & s2 & Hb & Hr).
    apply alloc_step in Hb as (Hx0 & Hx & -> & Hok1 & Hux & Hkeep); [|done..].
    unfold bind, update_inode, modify, ret in Hr. injection Hr as <- <-.
    split; [done|]. split; [done|]. split; [by apply Hkeep|].
    split; [|by split; [left|]].
    rewrite icache_set_icache. simpl.
    by rewrite list_lookup_alter_eq, Hip.
  - intros [= <- <-].
    split; [done|]. split; [done|]. split; [done|]. split; [done|].
    split; [by right|]. by intros [?|?].
Qed.

(** C7.  On a disk of well-formed sizes whose bitmap marks block 0, and
    the double-indirect block of the inode when it has one, as in use:
    when bmap returns a block for an index within the capacity of the
    map, calling it again with the same index returns the same block and
    leaves the state as the first call left it, so allocates nothing. *)
Theorem bmap_idempotent (s s' : state) (ip : nat) (i : inode) (bn a : Z) :
  0 <= NDIRECT -> 0 <= NINDIRECT -> 4 * NINDIRECT <= BSIZE ->
  disk_sized s -> in_use s 0 = true ->
  icache s !! ip = Some i ->
  length (i_addrs i) = Z.to_nat (NDIRECT + 1) ->
  (i_indirect2 i ≠ 0 -> in_use s (i_indirect2 i) = true) ->
  0 <= bn < NDIRECT + NINDIRECT + NINDIRECT * NINDIRECT ->
  bmap ip bn s = Ret a s' ->
  bmap ip bn s' = Ret a s'.
Proof.
  intros HND HNI Hfit Hok H0 Hip Hlen Hind2 Hbn Hfirst.
  cut (exists i', icache s' !! ip = Some i' /\ block_addr s' i' bn = Some a).
  { intros (i' & Hip' & Hmap). by eapply bmap_mapped. }
  unfold bmap in Hfirst.
  rewrite (bind_Ret _ _ _ _ _ (get_inode_Ret _ _ _ Hip)) in Hfirst.
  unfold block_addr.
  destruct (Z.ltb_spec bn NDIRECT) as [Hdir|Hdir].
  { (* a direct entry *)
    destruct (Z.eqb_spec (zget (i_addrs i) bn) 0) as [He|He].
    - apply bind_Ret_inv in Hfirst as (x & s1 & Hb & Hr).
      apply alloc_step in Hb as (Hx0 & Hx & -> & Hok1 & Hux & Hkeep); [|done..].
      unfold bind, set_addr, update_inode, modify, ret in Hr.
      injection Hr as <- <-.
      eexists. split.
      + rewrite icache_set_icache. simpl.
        by rewrite list_lookup_alter_eq, Hip.
      + unfold i_addrs. simpl. rewrite zget_zset_eq by (fold (i_addrs i); lia).
        by apply nonzero_ne.
    - injection Hfirst as <- <-. exists i. split; [done|]. by apply nonzero_ne. }
  destruct (Z.ltb_spec (bn - NDIRECT) NINDIRECT) as [Hsingle|Hsingle].
  { (* an entry of the indirect block *)
    apply bind_Ret_inv in Hfirst as (a1 & s1 & Hst1 & Hr).
    unfold set_addr in Hst1.
    apply (pointer_stage _ _
             (fun x => set_din (fun d => set_addrs (zset (d_addrs d) NDIRECT x) d)))
      with (i := i) in Hst1 as (Ha1 & Hok1 & H01 & Hip1 & Hval & _); [|done..].
    rewrite (bind_Ret _ _ _ _ _ (bread_Ret _ _)) in Hr.
    apply index_entry_stage in Hr
      as (Ha & Hent & Hok2 & H02 & Hic & _ & _); [|done|done|lia|done].
    eexists. split; [by rewrite Hic|].
    assert (Hptr : zget (i_addrs (if zget (i_addrs i) NDIRECT =? 0
                           then set_din (fun d => set_addrs (zset (d_addrs d) NDIRECT a1) d) i
                           else i)) NDIRECT = a1).
    { destruct (Z.eqb_spec (zget (i_addrs i) NDIRECT) 0) as [Hz|Hz].
      - unfold i_addrs. simpl. apply zget_zset_eq. fold (i_addrs i). lia.
      - by destruct Hval. }
    rewrite Hptr, (nonzero_ne a1) by done. rewrite Hent. by apply nonzero_ne. }
  destruct (Z.ltb_spec (bn - NDIRECT - NINDIRECT) (NINDIRECT * NINDIRECT))
    as [Hdouble|Hdouble]; [|lia].
  (* an entry under the double-indirect block *)
  set (bn2 := bn - NDIRECT - NINDIRECT) in *.
  assert (Hbn2 : 0 <= bn2) by (unfold bn2; lia).
  assert (HN : 0 < NINDIRECT) by nia.
  assert (Hq : 0 <= bn2 / NINDIRECT < NINDIRECT).
  { split; [apply Z.div_pos; lia|]. apply Z.div_lt_upper_bound; lia. }
  assert (Hrem : 0 <= bn2 mod NINDIRECT < NINDIRECT)
    by (apply Z.mod_pos_bound; lia).
  apply bind_Ret_inv in Hfirst as (d & s1 & Hst1 & Hr).
  apply (pointer_stage _ _ (fun x => set_din (set_indirect2 x)))
    with (i := i) in Hst1 as (Hd & Hok1 & H01 & Hip1 & Hval & Hused); [|done..].
  assert (Hd1 : in_use s1 d = true).
  { apply Hused. destruct (Z.eq_dec (i_indirect2 i) 0); [by left|right; auto]. }
  rewrite (bind_Ret _ _ _ _ _ (bread_Ret _ _)) in Hr.
  apply bind_Ret_inv in Hr as (m & s2 & Hst2 & Hr).
  apply index_entry_stage in Hst2
    as (Hm & Hent2 & Hok2 & H02 & Hic2 & Hkeep2 & _); [|done..].
  rewrite (bind_Ret _ _ _ _ _ (bread_Ret _ _)) in Hr.
  apply index_entry_stage in Hr
    as (Ha & Hent3 & Hok3 & H03 & Hic3 & _ & Hsame); [|done..].
  eexists. split; [by rewrite Hic3, Hic2|].
  assert (Hptr : i_indirect2 (if i_indirect2 i =? 0
                              then set_din (set_indirect2 d) i else i) = d).
  { destruct (Z.eqb_spec (i_indirect2 i) 0) as [Hz|Hz]; [done|].
    by destruct Hval. }
  rewrite Hptr, (nonzero_ne d) by done.
  rewrite (Hsame d (bn2 / NINDIRECT)); [|by apply Hkeep2|lia|by rewrite Hent2].
  rewrite Hent2, (nonzero_ne m) by done.
  rewrite Hent3. by apply nonzero_ne.
Qed.

End AllocFacts.

(** ** The symbolic-link budget *)

Section BudgetFacts.
Context `{fs_params}.
Variable walk : nat -> list Z -> list Z -> list Z -> Z -> list Z -> M walk_result.

Lemma restart_exhausted (k : nat) (name result origpath : list Z)
    (s : state) (name' result' origpath' : list Z) (s' : state) :
  (0 < k)%nat ->
  substitute walk k name result origpath s = Some (name', result', origpath', s') ->
  restart walk k name result origpath s = Ret (-1, None) s'.
Proof.
  revert name result origpath s.
  induction k as [|k IH]; intros name result origpath s Hk Hsub; [lia|].
  simpl in Hsub.
  destruct (one_pass walk name result origpath s)
    as [[|n1 r1 o1] s1| |] eqn:Hpass; try done.
  simpl. rewrite (bind_Ret _ _ _ _ _ Hpass).
  destruct k as [|k].
  - simpl in Hsub. by injection Hsub as <- <- <- <-.
  - apply IH; [lia|done].
Qed.

Lemma restart_within_budget (k loops_left : nat) (name result origpath : list Z)
    (s : state) (name' result' origpath' : list Z) (s' s'' : state)
    (r : Z) (buf : option (list Z)) :
  (k < loops_left)%nat ->
  substitute walk k name result origpath s = Some (name', result', origpath', s') ->
  one_pass walk name' result' origpath' s' = Ret (Done r buf) s'' ->
  restart walk loops_left name result origpath s = Ret (r, buf) s''.
Proof.
  revert loops_left name result origpath s.
  induction k as [|k IH]; intros loops_left name result origpath s Hk Hsub Hlast.
  - simpl in Hsub. injection Hsub as -> -> -> ->.
    destruct loops_left as [|loops_left]; [lia|]. simpl.
    by rewrite (bind_Ret _ _ _ _ _ Hlast).
  - simpl in Hsub.
    destruct (one_pass walk name result origpath s)
      as [[|n1 r1 o1] s1| |] eqn:Hpass; try done.
    destruct loops_left as [|loops_left]; [lia|]. simpl.
    rewrite (bind_Ret _ _ _ _ _ Hpass).
    destruct loops_left as [|loops_left]; [lia|].
    apply IH; [lia|done..].
Qed.

End BudgetFacts.

Section Canonicalization.
Context `{fs_params}.
Variable devsw_read : Z -> option (nat -> Z -> M (Z * list Z)).

Lemma canonicalize_restart (resolve_final : bool)
    (name result pathname : list Z) (bufsiz : Z) (s : state) :
  pathname ≠ [] -> pathname ≠ [slash] ->
  canonicalize devsw_read resolve_final name result pathname bufsiz s
  = restart (walk_of devsw_read resolve_final bufsiz) 16 name result
      (strncpy_bytes pathname MAXPATH) s.
Proof.
  intros Hne Hroot.
  destruct resolve_final; unfold canonicalize, filereadlink, filereadlinki;
    rewrite !bool_decide_eq_false_2 by done; reflexivity.
Qed.

(** C1, as amended.  Both canonicalization routines allow sixteen passes
    over the path, not sixteen substitutions.  A resolution in which each
    of sixteen passes in a row ends in the substitution of a link returns
    -1 at the sixteenth substitution; a resolution that substitutes at
    most fifteen links and then ends a pass with a result returns that
    result. *)
Theorem symlink_budget (resolve_final : bool) (name result pathname : list Z)
    (bufsiz : Z) (s : state) :
  pathname ≠ [] -> pathname ≠ [slash] ->
  let walk := walk_of devsw_read resolve_final bufsiz in
  let origpath := strncpy_bytes pathname MAXPATH in
  (forall name' result' origpath' s',
     substitute walk 16 name result origpath s
       = Some (name', result', origpath', s') ->
     canonicalize devsw_read resolve_final name result pathname bufsiz s
       = Ret (-1, None) s')
  /\ (forall (k : nat) name' result' origpath' s' r buf s'',
       (k <= 15)%nat ->
       substitute walk k name result origpath s
         = Some (name', result', origpath', s') ->
       one_pass walk name' result' origpath' s' = Ret (Done r buf) s'' ->
       canonicalize devsw_read resolve_final name result pathname bufsiz s
         = Ret (r, buf) s'').
Proof.
  intros Hne Hroot walk origpath. split.
  - intros name' result' origpath' s' Hsub.
    rewrite canonicalize_restart by done.
    eapply restart_exhausted; [lia|done].
  - intros k name' result' origpath' s' r buf s'' Hk Hsub Hlast.
    rewrite canonicalize_restart by done.
    eapply restart_within_budget; [|done..]. lia.
Qed.

End Canonicalization.

(** ** Strings in arrays *)

Lemma cstr_Some_inv (b nm : list Z) :
  cstr b = Some nm ->
  Forall (fun c => c ≠ 0) nm /\ exists rest, b = nm ++ 0 :: rest.
Proof.
  revert nm. induction b as [|c b IH]; intros nm; simpl; [done|].
  destruct (Z.eqb_spec c 0) as [->|Hc].
  - intros [= <-]. split; [constructor|]. by exists b.
  - destruct (cstr b) as [nm'|]; [|done]. simpl. intros [= <-].
    destruct (IH nm' eq_refl) as [Hnz [rest ->]].
    split; [by constructor|]. by exists rest.
Qed.

Lemma strn_prefix (pre rest : list Z) (k : nat) :
  Forall (fun c => c ≠ 0) pre -> (length pre <= k)%nat ->
  strn k (pre ++ 0 :: rest) = Some pre.
Proof.
  intros Hpre. revert k.
  induction Hpre as [|c pre Hc _ IH]; intros k Hk; simpl.
  - by destruct k.
  - destruct k as [|k]; simpl in *; [lia|].
    destruct (Z.eqb_spec c 0); [done|]. by rewrite IH by lia.
Qed.

Lemma cstr_prefix (pre rest : list Z) :
  Forall (fun c => c ≠ 0) pre -> cstr (pre ++ 0 :: rest) = Some pre.
Proof.
  induction 1 as [|c pre Hc _ IH]; simpl; [done|].
  destruct (Z.eqb_spec c 0); [done|]. by rewrite IH.
Qed.

Lemma store_length (buf buf' : list Z) (off : Z) (bytes : list Z) :
  store buf off bytes = Some buf' -> length buf' = length buf.
Proof.
  unfold store.
  destruct (Z.leb_spec 0 off); [|done].
  destruct (Z.leb_spec (off + Z.of_nat (length bytes)) (Z.of_nat (length buf)));
    [|done].
  simpl. intros [= <-]. rewrite !length_app, length_take, length_drop. lia.
Qed.

(** A store right after the portion [pre] of an array replaces what
    followed it. *)
Lemma store_after (pre rest : list Z) (off : Z) (bytes buf' : list Z) :
  off = Z.of_nat (length pre) ->
  store (pre ++ rest) off bytes = Some buf' ->
  buf' = pre ++ bytes ++ drop (length bytes) rest
  /\ (length bytes <= length rest)%nat.
Proof.
  intros -> Hst. unfold store in Hst.
  destruct (Z.leb_spec 0 (Z.of_nat (length pre))); [|done].
  destruct (Z.leb_spec (Z.of_nat (length pre) + Z.of_nat (length bytes))
                       (Z.of_nat (length (pre ++ rest)))) as [Hle|]; [|done].
  simpl in Hst. injection Hst as <-.
  rewrite length_app in Hle. rewrite Nat2Z.id.
  rewrite take_app_length, drop_app_add'; [|done]. split; [done|lia].
Qed.

Lemma store_bounds (buf buf' : list Z) (off : Z) (bytes : list Z) :
  store buf off bytes = Some buf' ->
  0 <= off /\ off + Z.of_nat (length bytes) <= Z.of_nat (length buf).
Proof.
  unfold store.
  destruct (Z.leb_spec 0 off); [|done].
  by destruct (Z.leb_spec (off + Z.of_nat (length bytes)) (Z.of_nat (length buf))).
Qed.

Lemma partial_of_terminated (result : list Z) (result_off : Z) :
  terminated result result_off -> partial result result_off.
Proof. intros (pre & rest & -> & Hpre & ->). by exists pre, (0 :: rest). Qed.

Section ReturnValue.
Context `{fs_params}.
Variable devsw_read : Z -> option (nat -> Z -> M (Z * list Z)).
Hypothesis MAXPATH_pos : 0 < MAXPATH.

Lemma safestrcpy_from_terminated (result : list Z) (result_off : Z) :
  terminated result result_off ->
  Z.of_nat (length result) = MAXPATH ->
  exists str, safestrcpy_from result MAXPATH = Some (str ++ [0])
              /\ cstr (str ++ [0]) = Some str /\ strlen str = result_off.
Proof.
  intros (pre & rest & -> & Hpre & ->) Hlen. exists pre.
  unfold safestrcpy_from. destruct (Z.leb_spec MAXPATH 0); [lia|].
  rewrite strn_prefix; [|done|].
  - split; [done|]. split; [by apply cstr_prefix|done].
  - rewrite length_app in Hlen. simpl in Hlen. lia.
Qed.

Lemma push_name_spec (name result : list Z) (result_off : Z) (s s' : state)
    (result' : list Z) (result_off' : Z) :
  Z.of_nat (length result) = MAXPATH ->
  partial result result_off ->
  push_name name result result_off s = Ret (result', result_off') s' ->
  s' = s /\ length result' = length result /\ terminated result' result_off'
  /\ exists nm, cstr name = Some nm
               /\ partial result' (result_off' - strlen nm).
Proof.
  intros Hlen (pre & rest & -> & Hpre & ->) Hp. unfold push_name in Hp.
  apply bind_Ret_inv in Hp as (bytes & s1 & Hb & Hp).
  apply in_bounds_Ret_inv in Hb as [Hb ->].
  apply bind_Ret_inv in Hp as (result1 & s1 & Hs1 & Hp).
  apply in_bounds_Ret_inv in Hs1 as [Hs1 ->].
  apply bind_Ret_inv in Hp as (nm & s1 & Hc & Hp).
  apply in_bounds_Ret_inv in Hc as [Hc ->].
  apply bind_Ret_inv in Hp as (result2 & s1 & Hs2 & Hp).
  apply in_bounds_Ret_inv in Hs2 as [Hs2 ->].
  injection Hp as <- <- <-.
  pose proof (store_length _ _ _ _ Hs1) as Hl1.
  pose proof (store_length _ _ _ _ Hs2) as Hl2.
  pose proof (store_bounds _ _ _ _ Hs2) as [_ Hbound].
  simpl in Hbound. unfold strlen in *.
  destruct (cstr_Some_inv _ _ Hc) as [Hnm [rest0 ->]].
  unfold safestrcpy_from in Hb. destruct (Z.leb_spec MAXPATH 0); [lia|].
  rewrite strn_prefix in Hb; [|done|lia]. simpl in Hb. injection Hb as <-.
  apply store_after in Hs1 as [-> _]; [|done].
  rewrite <- (app_assoc nm), (app_assoc pre) in Hs2. simpl in Hs2.
  apply store_after in Hs2 as [-> _]; [|rewrite length_app; lia].
  simpl. rewrite drop_0.
  split; [done|]. split; [rewrite <- Hl1, !length_app; simpl; lia|]. split.
  - eexists (pre ++ nm), _. split; [done|].
    split; [by apply Forall_app|]. rewrite length_app. lia.
  - exists nm. split; [done|]. eexists pre, _. rewrite <- app_assoc.
    split; [done|]. split; [done|]. lia.
Qed.

Lemma consistent_fail (size : nat) : consistent size (Done (-1) None).
Proof. simpl. lia. Qed.

Ltac inv_bind H x Hx :=
  let s1 := fresh "s" in
  apply bind_Ret_inv in H as (x & s1 & Hx & H).

Ltac inv_in_bounds H x Hx :=
  let s1 := fresh "s" in
  apply bind_Ret_inv in H as (x & s1 & Hx & H);
  apply in_bounds_Ret_inv in Hx as [Hx ->].

(** An inner element leaves the pass in one of the ways [consistent]
    allows, provided the rest of the loop does. *)
Lemma walk_inner_spec (origpath_p name result : list Z) (result_off : Z)
    (origpath : list Z) (continue : list Z -> Z -> M walk_result)
    (s s' : state) (w : walk_result) :
  Z.of_nat (length result) = MAXPATH ->
  partial result result_off ->
  (forall result1 off1 s1 s2 w1,
     Z.of_nat (length result1) = MAXPATH -> partial result1 off1 ->
     continue result1 off1 s1 = Ret w1 s2 ->
     consistent (Z.to_nat MAXPATH) w1) ->
  walk_inner devsw_read origpath_p name result result_off origpath continue s
    = Ret w s' ->
  consistent (Z.to_nat MAXPATH) w.
Proof.
  intros Hlen Hpart Hcont Hw. unfold walk_inner in Hw.
  inv_bind Hw r Hpush. destruct r as [result1 off1].
  apply push_name_spec in Hpush as (-> & Hlen1 & Hterm & _); [|done..].
  inv_in_bounds Hw path Hpath.
  inv_bind Hw ip Hnamei.
  destruct ip as [ip|]; [|injection Hw as <- <-; apply consistent_fail].
  inv_bind Hw u Hlock. inv_bind Hw i Hget.
  destruct ((i_type i =? T_FILE) || (i_type i =? T_DEV));
    [injection Hw as <- <-; apply consistent_fail|].
  destruct (i_type i =? T_DIR).
  { inv_in_bounds Hw result2 Hs2. inv_in_bounds Hw result3 Hs3.
    inv_bind Hw u' Hunlock.
    destruct Hterm as (pre & rest & -> & Hpre & ->).
    apply store_after in Hs2 as [-> _]; [|done].
    simpl in Hs3. rewrite drop_0 in Hs3.
    change (pre ++ slash :: rest) with (pre ++ [slash] ++ rest) in Hs3.
    rewrite app_assoc in Hs3.
    pose proof (store_length _ _ _ _ Hs3) as Hl3.
    apply store_after in Hs3 as [-> _]; [|rewrite length_app; simpl; lia].
    eapply Hcont; [| |done].
    - rewrite Hl3, <- Hlen, <- Hlen1, !length_app. simpl. lia.
    - eexists (pre ++ [slash]), _. split; [done|]. split.
      + apply Forall_app. split; [done|]. by repeat constructor.
      + rewrite length_app. simpl. lia. }
  destruct (i_type i =? T_SYMLINK); [|done].
  inv_in_bounds Hw nm Hnm. inv_bind Hw r Hread. destruct r as [l bytes].
  inv_in_bounds Hw result2 Hs2. inv_bind Hw u' Hunlock.
  inv_in_bounds Hw result3 Hs3. inv_in_bounds Hw result4 Hs4.
  inv_in_bounds Hw bytes' Hb. inv_in_bounds Hw origpath' Hso.
  injection Hw as <- <-. simpl.
  rewrite (store_length _ _ _ _ Hs4), (store_length _ _ _ _ Hs3),
    (store_length _ _ _ _ Hs2). lia.
Qed.

Lemma readlink_walk_spec (bufsiz : Z) (fuel : nat)
    (origpath_p name result : list Z) (result_off : Z) (origpath : list Z)
    (s s' : state) (w : walk_result) :
  Z.of_nat (length result) = MAXPATH ->
  partial result result_off ->
  readlink_walk devsw_read fuel bufsiz origpath_p name result result_off origpath s
    = Ret w s' ->
  consistent (Z.to_nat MAXPATH) w.
Proof.
  revert origpath_p name result result_off s s' w.
  induction fuel as [|fuel IH]; intros origpath_p name result result_off s s' w
    Hlen Hpart Hw; simpl in Hw.
  { destruct (skipelem origpath_p name) as [[p' name']|]; [done|].
    injection Hw as <- <-. apply consistent_fail. }
  destruct (skipelem origpath_p name) as [[p' name']|];
    [|injection Hw as <- <-; apply consistent_fail].
  destruct (bool_decide (p' = [])).
  2: { refine (walk_inner_spec _ _ _ _ _ _ _ _ _ Hlen Hpart _ Hw).
       intros result1 off1 s1 s2 w1 Hl1 Hp1 Hc1. by eapply IH. }
  inv_bind Hw r Hpush. destruct r as [result1 off1].
  apply push_name_spec in Hpush as (-> & Hlen1 & Hterm & _); [|done..].
  inv_in_bounds Hw path Hpath.
  inv_bind Hw ip Hnamei.
  destruct ip as [ip|]; [|injection Hw as <- <-; apply consistent_fail].
  inv_bind Hw u Hlock. inv_bind Hw i Hget.
  destruct ((i_type i =? T_FILE) || (i_type i =? T_DEV) || (i_type i =? T_DIR)).
  { inv_bind Hw u' Hunlock.
    destruct (bufsiz <? off1 + 1);
      [injection Hw as <- <-; apply consistent_fail|].
    inv_in_bounds Hw bytes Hb. injection Hw as <- <-.
    destruct (safestrcpy_from_terminated _ _ Hterm) as (str & Hstr & Hc & Hl);
      [lia|].
    rewrite Hstr in Hb. injection Hb as <-. simpl. intros _. by exists str. }
  destruct (i_type i =? T_SYMLINK); [|done].
  inv_bind Hw r Hread. destruct r as [l bytes].
  inv_in_bounds Hw origpath1 Hso1. inv_bind Hw u' Hunlock.
  inv_in_bounds Hw origpath2 Hso2.
  destruct (negb (zget origpath2 0 =? slash)).
  - inv_in_bounds Hw nm Hnm. inv_in_bounds Hw bytes1 Hb1.
    inv_in_bounds Hw result2 Hs2. inv_in_bounds Hw bytes2 Hb2.
    inv_in_bounds Hw origpath3 Hso3. injection Hw as <- <-. simpl.
    rewrite (store_length _ _ _ _ Hs2). lia.
  - injection Hw as <- <-. simpl. lia.
Qed.

Lemma readlinki_walk_spec (bufsiz : Z) (fuel : nat)
    (origpath_p name result : list Z) (result_off : Z) (origpath : list Z)
    (s s' : state) (w : walk_result) :
  Z.of_nat (length result) = MAXPATH ->
  partial result result_off ->
  readlinki_walk devsw_read fuel bufsiz origpath_p name result result_off origpath s
    = Ret w s' ->
  consistent (Z.to_nat MAXPATH) w.
Proof.
  revert origpath_p name result result_off s s' w.
  induction fuel as [|fuel IH]; intros origpath_p name result result_off s s' w
    Hlen Hpart Hw; simpl in Hw.
  { destruct (skipelem origpath_p name) as [[p' name']|]; [done|].
    injection Hw as <- <-. apply consistent_fail. }
  destruct (skipelem origpath_p name) as [[p' name']|];
    [|injection Hw as <- <-; apply consistent_fail].
  destruct (bool_decide (p' = [])).
  2: { refine (walk_inner_spec _ _ _ _ _ _ _ _ _ Hlen Hpart _ Hw).
       intros result1 off1 s1 s2 w1 Hl1 Hp1 Hc1. by eapply IH. }
  inv_bind Hw r Hpush. destruct r as [result1 off1].
  apply push_name_spec in Hpush as (-> & Hlen1 & Hterm & _); [|done..].
  destruct (bufsiz <? off1 + 1);
    [injection Hw as <- <-; apply consistent_fail|].
  inv_in_bounds Hw bytes Hb. injection Hw as <- <-.
  destruct (safestrcpy_from_terminated _ _ Hterm) as (str & Hstr & Hc & Hl);
    [lia|].
  rewrite Hstr in Hb. injection Hb as <-. simpl. intros _. by exists str.
Qed.

Lemma walk_of_spec (resolve_final : bool) (bufsiz : Z) (fuel : nat)
    (origpath_p name result : list Z) (result_off : Z) (origpath : list Z)
    (s s' : state) (w : walk_result) :
  Z.of_nat (length result) = MAXPATH ->
  partial result result_off ->
  walk_of devsw_read resolve_final bufsiz fuel origpath_p name result
    result_off origpath s = Ret w s' ->
  consistent (Z.to_nat MAXPATH) w.
Proof.
  destruct resolve_final; [apply readlink_walk_spec|apply readlinki_walk_spec].
Qed.

Lemma one_pass_spec (resolve_final : bool) (bufsiz : Z)
    (name result origpath : list Z) (s s' : state) (w : walk_result) :
  Z.of_nat (length result) = MAXPATH ->
  one_pass (walk_of devsw_read resolve_final bufsiz) name result origpath s
    = Ret w s' ->
  consistent (Z.to_nat MAXPATH) w.
Proof.
  intros Hlen Hp. unfold one_pass in Hp.
  inv_bind Hp r Hfirst. destruct r as [result1 off1].
  inv_in_bounds Hp result2 Hs2. inv_in_bounds Hp origpath_p Hpath.
  pose proof (store_length _ _ _ _ Hs2) as Hl2.
  assert (Hl1 : length result1 = length result
                /\ (off1 = 0 \/ off1 = 1 /\ exists rest, result1 = slash :: rest)).
  { destruct (zget origpath 0 =? slash).
    - inv_in_bounds Hfirst result0 Hs0. injection Hfirst as <- <- <-.
      split; [by eapply store_length|]. right. split; [done|].
      apply (store_after [] result) in Hs0 as [-> _]; [|done]. by eexists.
    - injection Hfirst as <- <- <-. split; [done|by left]. }
  destruct Hl1 as [Hl1 Hoff].
  eapply walk_of_spec; [| |exact Hp]; [lia|].
  destruct Hoff as [->|[-> [rest ->]]].
  - by exists [], result2.
  - apply (store_after [slash] rest) in Hs2 as [-> _]; [|done].
    eexists [slash], _. split; [done|]. split; [|done]. by repeat constructor.
Qed.

Lemma restart_spec (resolve_final : bool) (bufsiz : Z) (loops_left : nat)
    (name result origpath : list Z) (s s' : state) (r : Z)
    (buf : option (list Z)) :
  Z.of_nat (length result) = MAXPATH ->
  restart (walk_of devsw_read resolve_final bufsiz) loops_left name result
    origpath s = Ret (r, buf) s' ->
  0 <= r -> exists str, buf = Some str /\ r = strlen str.
Proof.
  revert name result origpath s.
  induction loops_left as [|n IH]; intros name result origpath s Hlen Hr;
    simpl in Hr; [done|].
  inv_bind Hr w Hpass. apply one_pass_spec in Hpass; [|done].
  destruct w as [r1 buf1|name1 result1 origpath1].
  - injection Hr as <- <- <-. done.
  - simpl in Hpass. destruct n as [|n].
    + injection Hr as <- <- <-. lia.
    + eapply IH; [|exact Hr]. lia.
Qed.

(** C8.  On the path "/" both routines store "/" and return 2, one more
    than the length of what they stored; on every other path, a return
    value that is not negative is the length of the string stored, its
    terminator not counted. *)
Theorem canonicalize_return_value (resolve_final : bool)
    (name result : list Z) (bufsiz : Z) (s : state) :
  Z.of_nat (length result) = MAXPATH ->
  canonicalize devsw_read resolve_final name result [slash] bufsiz s
    = Ret (2, Some [slash]) s
  /\ 2 = strlen [slash] + 1
  /\ (forall pathname r buf s',
        pathname ≠ [slash] ->
        canonicalize devsw_read resolve_final name result pathname bufsiz s
          = Ret (r, buf) s' ->
        0 <= r ->
        exists str, buf = Some str /\ r = strlen str).
Proof.
  intros Hlen. split; [by destruct resolve_final|]. split; [done|].
  intros pathname r buf s' Hroot Hc Hr.
  destruct (decide (pathname = [])) as [->|Hne].
  { destruct resolve_final; cbv in Hc; injection Hc as <- <- <-; lia. }
  rewrite canonicalize_restart in Hc by done.
  by eapply restart_spec.
Qed.

End ReturnValue.

(** ** Dropping references *)

Lemma alter_lookup {A} (f : A -> A) (l : list A) (k : nat) (x : A) :
  l !! k = Some x -> alter f k l = <[k := f x]> l.
Proof.
  revert k. induction l as [|y l IH]; intros [|k] Hk; simplify_eq/=; [done|].
  f_equal. by apply IH.
Qed.

Section ReferenceFacts.
Context `{fs_params}.

(** One iput on an inode that still has links only decrements the
    reference count. *)
Lemma iput_linked (s : state) (ip : nat) (i : inode) :
  icache s !! ip = Some i ->
  i_nlink i ≠ 0 ->
  iput ip s = Ret tt (set_icache (<[ip := set_ref (i_ref i - 1) i]> (icache s)) s).
Proof.
  intros Hip Hlink. unfold iput.
  rewrite (bind_Ret _ _ _ _ _ (get_inode_Ret _ _ _ Hip)).
  destruct (Z.eqb_spec (i_nlink i) 0); [done|].
  rewrite !andb_false_r.
  unfold bind, ret, update_inode, modify.
  by rewrite (alter_lookup _ _ _ _ Hip).
Qed.

(** C4, where the code departs from it.  For an inode that still has
    links, [r] calls of iput on a slot with reference count [r] bring the
    count to zero and leave everything else as it was, the flags of the
    slot included: a valid inode stays marked valid. *)
Theorem iput_keeps_flags (r : nat) (s : state) (ip : nat) (i : inode) :
  icache s !! ip = Some i ->
  i_ref i = Z.of_nat r -> (0 < r)%nat ->
  i_nlink i ≠ 0 ->
  exists s', iput_times r ip s = Ret tt s'
    /\ s' = set_icache (<[ip := set_ref 0 i]> (icache s)) s
    /\ exists i', icache s' !! ip = Some i'
         /\ i_ref i' = 0 /\ i_flags i' = i_flags i.
Proof.
  intros Hip Href Hr Hlink.
  assert (Hrun : iput_times r ip s
                 = Ret tt (set_icache (<[ip := set_ref 0 i]> (icache s)) s)).
  { revert s i Hip Href Hr Hlink.
    induction r as [|r IH]; intros s i Hip Href Hr Hlink; [lia|].
    simpl. rewrite (bind_Ret _ _ _ _ _ (iput_linked _ _ _ Hip Hlink)).
    assert (Hin : (ip < length (icache s))%nat) by by eapply lookup_lt_Some.
    destruct r as [|r].
    - simpl. unfold ret. rewrite Href. done.
    - rewrite (IH _ (set_ref (i_ref i - 1) i)); try done.
      + simpl. by rewrite list_insert_insert_eq.
      + rewrite icache_set_icache. by apply list_lookup_insert_eq.
      + simpl. lia.
      + lia. }
  eexists. split; [exact Hrun|]. split; [done|].
  rewrite icache_set_icache, list_lookup_insert_eq by by eapply lookup_lt_Some.
  by eexists.
Qed.

End ReferenceFacts.

(** ** The fuel of the path loops is enough

    Each round of the loops over a path consumes at least one byte of it,
    so the length of the path bounds their rounds: with that much fuel or
    more the loops do the same. *)

Lemma skip_slashes_length (p : list Z) :
  (length (skip_slashes p) <= length p)%nat.
Proof.
  induction p as [|c p IH]; simpl; [done|].
  destruct (c =? slash); simpl; lia.
Qed.

Lemma scan_elem_length (p e r : list Z) :
  scan_elem p = (e, r) -> (length e + length r = length p)%nat.
Proof.
  revert e r. induction p as [|c p IH]; intros e r; simpl.
  - by intros [= <- <-].
  - destruct (c =? slash); [by intros [= <- <-]|].
    destruct (scan_elem p) as [e' r'] eqn:Hs. intros [= <- <-].
    simpl. specialize (IH _ _ eq_refl). lia.
Qed.

Section FuelFacts.
Context `{fs_params}.
Variable devsw_read : Z -> option (nat -> Z -> M (Z * list Z)).

Lemma skipelem_shorter (path name path' name' : list Z) :
  skipelem path name = Some (path', name') ->
  (length path' < length path)%nat.
Proof.
  unfold skipelem. pose proof (skip_slashes_length path) as Hlen.
  pose proof (skip_slashes_head path) as Hhead.
  destruct (skip_slashes path) as [|c l] eqn:Hskip; [done|].
  destruct (scan_elem (c :: l)) as [e r] eqn:Hscan. intros [= <- _].
  pose proof (scan_elem_length _ _ _ Hscan) as Hsum.
  pose proof (skip_slashes_length r).
  assert (e ≠ []).
  { simpl in Hscan. destruct (Z.eqb_spec c slash) as [->|]; [done|].
    destruct (scan_elem l). by injection Hscan as <- _. }
  destruct e; [done|]. simpl in *. lia.
Qed.

Lemma namex_loop_fuel (fuel1 fuel2 : nat) (ip : nat) (path : list Z)
    (parent : bool) (name : list Z) (s : state) :
  (length path <= fuel1)%nat -> (length path <= fuel2)%nat ->
  namex_loop devsw_read fuel1 ip path parent name s
  = namex_loop devsw_read fuel2 ip path parent name s.
Proof.
  revert fuel2 ip path name s.
  induction fuel1 as [|fuel1 IH]; intros fuel2 ip path name s H1 H2.
  - destruct path; [|simpl in H1; lia].
    by destruct fuel2.
  - destruct fuel2 as [|fuel2].
    { destruct path; [done|simpl in H2; lia]. }
    simpl. destruct (skipelem path name) as [[path' name']|] eqn:Hskip; [|done].
    apply skipelem_shorter in Hskip.
    unfold bind. destruct (ilock ip s) as [[] s1| |]; [|done..].
    destruct (get_inode ip s1) as [i s2| |]; [|done..].
    destruct (negb (i_type i =? T_DIR)); [done|].
    destruct (parent && bool_decide (path' = [])); [done|].
    destruct (dirlookup devsw_read ip name' s2) as [[[next off]|] s3| |];
      [|done..].
    destruct (iunlockput ip s3) as [[] s4| |]; [|done..].
    apply IH; lia.
Qed.

Lemma walk_inner_ext (origpath_p name result : list Z) (result_off : Z)
    (origpath : list Z) (k1 k2 : list Z -> Z -> M walk_result) (s : state) :
  (forall result' off' s', k1 result' off' s' = k2 result' off' s') ->
  walk_inner devsw_read origpath_p name result result_off origpath k1 s
  = walk_inner devsw_read origpath_p name result result_off origpath k2 s.
Proof.
  intros Hk. unfold walk_inner, bind.
  destruct (push_name name result result_off s) as [[result1 off1] s1| |];
    [|done..].
  destruct (in_bounds (cstr result1) s1) as [path s2| |]; [|done..].
  destruct (namei devsw_read path s2) as [[ip|] s3| |]; [|done..].
  destruct (ilock ip s3) as [[] s4| |]; [|done..].
  destruct (get_inode ip s4) as [i s5| |]; [|done..].
  destruct ((i_type i =? T_FILE) || (i_type i =? T_DEV)); [done|].
  destruct (i_type i =? T_DIR); [|done].
  destruct (in_bounds (store result1 off1 [slash]) s5) as [result2 s6| |];
    [|done..].
  destruct (in_bounds (store result2 (off1 + 1) [0]) s6) as [result3 s7| |];
    [|done..].
  destruct (iunlock ip s7) as [[] s8| |]; [|done..].
  apply Hk.
Qed.

Lemma walk_fuel (resolve_final : bool) (bufsiz : Z) (fuel1 fuel2 : nat)
    (origpath_p name result : list Z) (result_off : Z) (origpath : list Z)
    (s : state) :
  (length origpath_p <= fuel1)%nat -> (length origpath_p <= fuel2)%nat ->
  walk_of devsw_read resolve_final bufsiz fuel1 origpath_p name result
    result_off origpath s
  = walk_of devsw_read resolve_final bufsiz fuel2 origpath_p name result
      result_off origpath s.
Proof.
  revert fuel2 origpath_p name result result_off s.
  induction fuel1 as [|fuel1 IH];
    intros fuel2 origpath_p name result result_off s H1 H2.
  - destruct origpath_p; [|simpl in H1; lia].
    by destruct resolve_final, fuel2.
  - destruct fuel2 as [|fuel2].
    { destruct origpath_p; [by destruct resolve_final|simpl in H2; lia]. }
    destruct resolve_final; simpl;
      (destruct (skipelem origpath_p name) as [[p' name']|] eqn:Hskip; [|done]);
      apply skipelem_shorter in Hskip;
      (destruct (bool_decide (p' = [])); [done|]);
      apply walk_inner_ext; intros result' off' s'.
    + apply (IH fuel2 p' name' result' off' s'); lia.
    + apply (IH fuel2 p' name' result' off' s'); lia.
Qed.

End FuelFacts.

(** * The properties at work on the sample disks *)

Import Sample.

Ltac concrete := vm_compute; first [reflexivity | done | lia].

(** Run [tac] on the inode that slot [ip] of the cache of [s] holds. *)
Ltac with_inode s ip tac :=
  let o := eval vm_compute in (icache s !! ip) in
  match o with
  | Some ?i => tac i
  end.

(** A property checked on each number of a range holds on the range. *)
Lemma range_forall (P : Z -> Prop) (lo n : Z) :
  Forall P (seqZ lo n) -> forall y, lo <= y < lo + n -> P y.
Proof.
  intros Hall y Hy. rewrite Forall_forall in Hall. apply Hall.
  apply elem_of_seqZ. lia.
Qed.

Ltac decided := apply (bool_decide_unpack _); vm_compute; reflexivity.

Lemma no_read_keeps (major : Z) (read : nat -> Z -> M (Z * list Z))
    (ip : nat) (n : Z) :
  no_read major = Some read -> keeps_table (read ip n).
Proof. intros [=]. Qed.

(** A long element fills [name] and leaves it without a terminator. *)
Lemma skipelem_long_element :
  exists name',
    skipelem (bytes_of "//averyveryverylongname//b") (replicate 14 7)
      = Some (bytes_of "b", name')
    /\ name' = bytes_of "averyveryveryl".
Proof.
  destruct (skipelem_copies_element (bytes_of "//")
              (bytes_of "averyveryverylongname") (bytes_of "//b")
              (replicate 14 7))
    as (name' & Hskip & _ & Hlong & _).
  - by repeat constructor.
  - done.
  - apply (bool_decide_unpack _). by vm_compute.
  - by right.
  - concrete.
  - exists name'. split; [exact Hskip|]. apply Hlong. concrete.
Defined.

(** A write one byte beyond the end of "hello" is refused. *)
Lemma writei_hole_refused :
  writei no_write 1 (bytes_of "z") 6 1 small_locked = Ret (-1) small_locked.
Proof.
  with_inode small_locked 1%nat ltac:(fun i =>
    refine (proj1 (writei_beyond_size no_write small_locked 1%nat i
                     (bytes_of "z") 6 1 _ _) _));
  concrete.
Defined.

(** C2, as stated, fails: a read that starts one byte beyond the end of
    the five-byte regular file "/f" is not a success with zero bytes, it
    is rejected with -1. *)
Lemma readi_beyond_size_rejected :
  (exists i, icache small_locked !! 1%nat = Some i
             /\ i_type i = T_FILE /\ i_size i = 5)
  /\ readi no_read 1 6 1 small_locked = Ret (-1, []) small_locked.
Proof.
  split; [|concrete].
  with_inode small_locked 1%nat ltac:(fun i => exists i). by vm_compute.
Defined.

(** A read of ten bytes at offset 2 of "hello" returns the three bytes
    that are left. *)
Lemma readi_clamped_in_hello :
  exists bytes, readi no_read 1 2 10 small_locked = Ret (3, bytes) small_locked.
Proof.
  with_inode small_locked 1%nat ltac:(fun i =>
    destruct (readi_clamps_to_size no_read small_locked 1%nat i 2 10)
      as (_ & _ & Hclamp & _)); try concrete.
  apply Hclamp; try concrete.
  intros bn Hbn. vm_compute in Hbn.
  assert (bn = 0) as -> by (destruct Hbn as [H1 H2]; destruct bn; done).
  vm_compute. by eexists.
Defined.

(** C3, as stated, fails: lookup in the regular file "/f" does not come
    back with "not found", it halts in panic. *)
Lemma dirlookup_in_file_panics :
  dirlookup no_read 1 (bytes_of "x") small_locked = Panic "dirlookup not DIR"
  /\ forall s', dirlookup no_read 1 (bytes_of "x") small_locked ≠ Ret None s'.
Proof.
  assert (Hp : dirlookup no_read 1 (bytes_of "x") small_locked
               = Panic "dirlookup not DIR") by concrete.
  split; [exact Hp|]. intros s'. by rewrite Hp.
Defined.

(** Lookup of a name in the regular file "/f" halts, and lookup in the
    root directory of a name it does not hold comes back with nothing. *)
Lemma dirlookup_on_samples :
  dirlookup no_read 1 (bytes_of "name") small_locked = Panic "dirlookup not DIR"
  /\ dirlookup no_read 0 (bytes_of "name") small_root = Ret None small_root.
Proof.
  split.
  - with_inode small_locked 1%nat ltac:(fun i =>
      refine (proj1 (dirlookup_not_dir_panics no_read small_locked 1%nat i
                       (bytes_of "name") _) _));
    concrete.
  - with_inode small_root 0%nat ltac:(fun i =>
      refine (proj2 (dirlookup_not_dir_panics no_read small_root 0%nat i
                       (bytes_of "name") _) _ _ _ _ _));
      [concrete | concrete | concrete | concrete | concrete |].
    intros off Hoff Hmod.
    change (0 <= off < 80) in Hoff. change (off mod 16 = 0) in Hmod.
    apply Z.mod_divide in Hmod as [k ->]; [|done].
    assert (k = 0 \/ k = 1 \/ k = 2 \/ k = 3 \/ k = 4)
      as [->|[->|[->|[->| ->]]]] by lia;
      vm_compute; eexists; (split; [reflexivity|right; discriminate]).
Defined.

(** C1, as stated, fails: "/l01" resolves through sixteen links, all
    different, to the regular file "/f" (sixteen passes substitute one
    link each, and the pass after them would end with "/f"), and
    filereadlink returns -1 on it. *)
Lemma chain_of_sixteen_fails :
  result_of (readlink "/l01" chain16) = inl (Some (-1, None))
  /\ match substitute (walk_of no_read true MAXPATH) 16 stack_name stack_result
             (strncpy_bytes (bytes_of "/l01") MAXPATH) chain16 with
     | Some (name, result, origpath, s) =>
       result_of (one_pass (walk_of no_read true MAXPATH) name result origpath s)
       = inl (Some (Done 2 (Some (bytes_of "/f"))))
     | None => False
     end.
Proof. split; concrete. Defined.

(** A cycle of links need not spend the budget: the link "/a" to
    "a/bbbbbbbbbbbbb" makes the path longer at each substitution, and the
    ninth pass stores past the end of [result]. *)
Lemma growing_cycle_overruns :
  readlink "/a" growing = Stuck OutOfBounds.
Proof. by vm_compute. Qed.

(** The two links "/x" and "/y" to each other exhaust the budget, and the
    fifteen links from "/l02" on are within it. *)
Lemma symlink_budget_on_samples :
  (exists s', readlink "/x" small = Ret (-1, None) s')
  /\ (exists s', readlink "/l02" chain16 = Ret (2, Some (bytes_of "/f")) s').
Proof.
  split.
  - let o := eval vm_compute in
        (substitute (walk_of no_read true MAXPATH) 16 stack_name stack_result
           (strncpy_bytes (bytes_of "/x") MAXPATH) small) in
    match o with
    | Some (?n, ?r, ?o', ?s') =>
      exists s';
      apply (proj1 (symlink_budget no_read true stack_name stack_result
                      (bytes_of "/x") MAXPATH small ltac:(done) ltac:(done))
               n r o' s')
    end.
    concrete.
  - let o := eval vm_compute in
        (substitute (walk_of no_read true MAXPATH) 15 stack_name stack_result
           (strncpy_bytes (bytes_of "/l02") MAXPATH) chain16) in
    match o with
    | Some (?n, ?r, ?o', ?s') =>
      let last := eval vm_compute in
          (one_pass (walk_of no_read true MAXPATH) n r o' s') in
      match last with
      | Ret _ ?s'' =>
        exists s'';
        apply (proj2 (symlink_budget no_read true stack_name stack_result
                        (bytes_of "/l02") MAXPATH chain16 ltac:(done) ltac:(done))
                 15%nat n r o' s' 2 (Some (bytes_of "/f")) s'')
      end
    end; concrete.
Defined.

(** The failing input of C4: "/f" has one link and one reference, and
    its inode has been read; the last iput leaves the flag I_VALID set. *)
Lemma iput_leaves_valid_set :
  exists s' i', iput_times 1 1 small_held = Ret tt s'
    /\ icache s' !! 1%nat = Some i'
    /\ i_ref i' = 0 /\ i_flags i' = I_VALID.
Proof.
  with_inode small_held 1%nat ltac:(fun i =>
    destruct (iput_keeps_flags 1 small_held 1%nat i)
      as (s' & Hrun & _ & i' & Hip & Href & Hflags)); try concrete.
  exists s', i'. by rewrite Hflags.
Defined.

(** The failing input of C5.  "/f" is cached with one reference, in
    [small_held] without a password and in [guarded_held] with the
    password "pw".  funprot returns 0 on the first, -1 with a wrong
    password on the second, and 0 with the right one, the password being
    as C5 says each time; and each time the inode is left with two
    references. *)
Lemma funprot_leaks_reference :
  (i_ref <$> icache small_held !! 1%nat = Some 1
   /\ exists s', funprot "/f" "any" small_held = Ret 0 s'
        /\ i_ref <$> icache s' !! 1%nat = Some 2)
  /\ (i_ref <$> icache guarded_held !! 1%nat = Some 1
      /\ (exists s', funprot "/f" "wrong" guarded_held = Ret (-1) s'
            /\ password_at 1 s' = Some (bytes_of "pw")
            /\ i_ref <$> icache s' !! 1%nat = Some 2)
      /\ (exists s', funprot "/f" "pw" guarded_held = Ret 0 s'
            /\ password_at 1 s' = Some []
            /\ i_ref <$> icache s' !! 1%nat = Some 2)).
Proof.
  split; [|split; [|split]]; try concrete.
  - split; [concrete|].
    destruct (filefunprot_cases no_read stack_name stack_result
                (bytes_of "/f") (bytes_of "any") small_held
                (target_state "/f" small_held) 1%nat
                (target_inode "/f" small_held 1))
      as (_ & _ & Hnone); [concrete|concrete|].
    destruct Hnone as (s' & Hrun & Heq & _); [concrete|].
    exists s'. split; [exact Hrun|]. rewrite Heq.
    repeat split; vm_compute; reflexivity.
  - destruct (filefunprot_cases no_read stack_name stack_result
                (bytes_of "/f") (bytes_of "wrong") guarded_held
                (target_state "/f" guarded_held) 1%nat
                (target_inode "/f" guarded_held 1))
      as (_ & Hwrong & _); [concrete|concrete|].
    destruct Hwrong as (s' & Hrun & Heq & _); [concrete..|].
    exists s'. split; [exact Hrun|]. rewrite Heq.
    repeat split; vm_compute; reflexivity.
  - destruct (filefunprot_cases no_read stack_name stack_result
                (bytes_of "/f") (bytes_of "pw") guarded_held
                (target_state "/f" guarded_held) 1%nat
                (target_inode "/f" guarded_held 1))
      as (Hright & _ & _); [concrete|concrete|].
    destruct Hright as (s' & Hrun & Heq & _); [concrete..|].
    exists s'. split; [exact Hrun|]. rewrite Heq.
    repeat split; vm_compute; reflexivity.
Defined.

(** funlock on the guarded file, called by process 7.  With the right
    password it returns 0 and slot 0 of the row of inode 2 holds 7, the
    table holding nothing else; a second call returns 0 and leaves the
    table as the first left it; a wrong password returns -1 and leaves
    the table empty; and with the row taken by another process the call
    halts in panic. *)
Lemma funlock_on_guarded_file :
  (unlocked_inodes guarded = ∅
   /\ exists s', funlock "/f" "pw" guarded = Ret 0 s'
        /\ unlocked_inodes s' = {[ (2, 0) := 7 ]}
        /\ s' = guarded_exempt)
  /\ (exists s', funlock "/f" "pw" guarded_exempt = Ret 0 s'
        /\ unlocked_inodes s' = {[ (2, 0) := 7 ]})
  /\ (exists s', funlock "/f" "wrong" guarded = Ret (-1) s'
        /\ unlocked_inodes s' = ∅)
  /\ funlock "/f" "pw" guarded_crowded = Panic "unlock_inodes: No free pid slots found".
Proof.
  unfold funlock.
  split; [|split; [|split]].
  - destruct (proj2 (filefunlock_cases no_read no_read_keeps stack_name
                       stack_result (bytes_of "/f") (bytes_of "pw") guarded)
                (target_state "/f" guarded) 1%nat (target_inode "/f" guarded 1))
      as (_ & Hmatch); [concrete|concrete|concrete|].
    destruct Hmatch as (_ & Hfresh & _); [concrete..|].
    destruct (Hfresh
                ltac:(apply (range_forall _ 0 NPROC); decided) 0
                ltac:(concrete) ltac:(concrete) ltac:(intros j Hj; lia))
      as [Hrun Htable].
    clear Hfresh. split; [vm_compute; reflexivity|].
    eexists. split; [exact Hrun|].
    split; [etrans; [exact Htable|vm_compute; reflexivity]|].
    vm_compute; reflexivity.
  - destruct (proj2 (filefunlock_cases no_read no_read_keeps stack_name
                       stack_result (bytes_of "/f") (bytes_of "pw")
                       guarded_exempt)
                (target_state "/f" guarded_exempt) 1%nat
                (target_inode "/f" guarded_exempt 1))
      as (_ & Hagain); [concrete|concrete|concrete|].
    destruct Hagain as (Hheld & _ & _); [concrete..|].
    destruct Hheld as [Hrun Htable].
    { exists 0. split; concrete. }
    eexists. split; [exact Hrun|].
    etrans; [exact Htable|vm_compute; reflexivity].
  - destruct (proj2 (filefunlock_cases no_read no_read_keeps stack_name
                       stack_result (bytes_of "/f") (bytes_of "wrong") guarded)
                (target_state "/f" guarded) 1%nat (target_inode "/f" guarded 1))
      as (Hwrong & _); [concrete|concrete|concrete|].
    destruct Hwrong as [Hrun Htable]; [right; concrete|].
    eexists. split; [exact Hrun|].
    etrans; [exact Htable|vm_compute; reflexivity].
  - destruct (proj2 (filefunlock_cases no_read no_read_keeps stack_name
                       stack_result (bytes_of "/f") (bytes_of "pw")
                       guarded_crowded)
                (target_state "/f" guarded_crowded) 1%nat
                (target_inode "/f" guarded_crowded 1))
      as (_ & Hmatch); [concrete|concrete|concrete|].
    destruct Hmatch as (_ & _ & Hfull); [concrete..|].
    apply Hfull.
    (apply (range_forall _ 0 NPROC); decided).
Defined.

(** bmap twice on a block under the double-indirect block of "/f". *)
Lemma bmap_twice_on_sample :
  exists a s', bmap 1 (NDIRECT + NINDIRECT + 5) small_locked = Ret a s'
    /\ bmap 1 (NDIRECT + NINDIRECT + 5) s' = Ret a s'.
Proof.
  let o := eval vm_compute in (bmap 1 (NDIRECT + NINDIRECT + 5) small_locked) in
  match o with
  | Ret ?a ?s' => pose (a0 := a); pose (s0 := s')
  end.
  exists a0, s0.
  assert (Hfirst : bmap 1 (NDIRECT + NINDIRECT + 5) small_locked = Ret a0 s0)
    by (vm_compute; reflexivity).
  split; [exact Hfirst|].
  with_inode small_locked 1%nat ltac:(fun i =>
    refine (bmap_idempotent _ small_locked s0 1%nat i _ a0 _ _ _ _ _ _ _ _ _ Hfirst));
    clear Hfirst; clear s0 a0.
  - concrete.
  - concrete.
  - concrete.
  - concrete.
  - apply (bool_decide_unpack _). by vm_compute.
  - concrete.
  - concrete.
  - concrete.
  - intros Hnz. by vm_compute in Hnz.
  - concrete.
Defined.

(** The return value on "/" and on "/a", which resolves to "/f". *)
Lemma return_value_on_samples :
  readlink "/" small = Ret (2, Some (bytes_of "/")) small
  /\ exists s' str, readlink "/a" small = Ret (2, Some str) s'
                    /\ 2 = strlen str.
Proof.
  destruct (canonicalize_return_value no_read ltac:(concrete) true stack_name
              stack_result MAXPATH small ltac:(concrete))
    as (Hroot & _ & Hother).
  split; [exact Hroot|].
  let o := eval vm_compute in (readlink "/a" small) in
  match o with
  | Ret (_, ?buf) ?s' =>
    pose (s0 := s');
    assert (Hrun : readlink "/a" small = Ret (2, buf) s0)
      by (vm_compute; reflexivity)
  end.
  destruct (Hother (bytes_of "/a") 2 _ s0
              ltac:(clear; intros E; discriminate E) Hrun ltac:(clear; lia))
    as (str & [= <-] & Hlen).
  eexists s0, _. split; [exact Hrun|exact Hlen].
Defined.

(** The other half of C4 at work: the last iput on the unlinked file
    frees the seven blocks its map reached, clears size and type on disk,
    and leaves the slot with no reference and no flag. *)
Lemma iput_unlinked_frees_blocks :
  let blocks := [60; 128; 129; 130; 131; 132; 133] in
  let s' := state_of (iput 1 small_unlinked) small in
  forallb (in_use small_unlinked) blocks = true
  /\ result_of (iput 1 small_unlinked) = inl (Some tt)
  /\ forallb (fun b => negb (in_use s' b)) blocks = true
  /\ d_type <$> dinodes s' !! 2 = Some 0
  /\ d_size <$> dinodes s' !! 2 = Some 0
  /\ i_ref <$> icache s' !! 1%nat = Some 0
  /\ i_flags <$> icache s' !! 1%nat = Some 0.
Proof. by vm_compute. Qed.

(** The scenario of the password lock: protect "/f" with "pw"; an
    unprotect with a wrong password fails and the password stays; one
    with "pw" succeeds and the password is gone; one more, with any
    password, succeeds and changes nothing of it. *)
Lemma protect_unprotect_scenario :
  let s1 := state_of (fprot "/f" "pw" small) small in
  let s2 := state_of (funprot "/f" "wrong" s1) small in
  let s3 := state_of (funprot "/f" "pw" s2) small in
  let s4 := state_of (funprot "/f" "other" s3) small in
  result_of (fprot "/f" "pw" small) = inl (Some 0)
  /\ password_at 1 s1 = Some (bytes_of "pw")
  /\ result_of (funprot "/f" "wrong" s1) = inl (Some (-1))
  /\ password_at 1 s2 = Some (bytes_of "pw")
  /\ result_of (funprot "/f" "pw" s2) = inl (Some 0)
  /\ password_at 1 s3 = Some []
  /\ result_of (funprot "/f" "other" s3) = inl (Some 0)
  /\ password_at 1 s4 = Some [].
Proof. by vm_compute. Qed.
